(** * REST query-parameter conversion (packages/core/utils/lib/convert-rest-query-params.js)

    A shallow embedding of [convertRestQueryParams] and its helpers, and the
    properties of the conversion stated over it.

    JavaScript values are embedded as the inductive type [value]; an object is
    the list of its own enumerable properties in enumeration order; a thrown
    exception is the [Throw] branch of [result].  Strings are sequences of
    code units below 256. *)

From Stdlib Require Import ZArith List String Ascii Bool Lia.
From Stdlib Require Import DecimalString.
From Stdlib Require DecimalNat DecimalFacts.
Import ListNotations.

Set Warnings "-register-all".

Local Open Scope string_scope.
Local Open Scope list_scope.

(* ================================================================== *)
(** ** Numbers *)

(** The values a JavaScript number takes: a double is NaN, an infinity, the
    negative zero, an integer or an odd numerator over a power of two.
    [Frac m e] stands for [m / 2^e] with [m] odd. *)
Inductive number : Type :=
| NaN
| Inf (negative : bool)
| NegZero
| Int (z : Z)
| Frac (m : Z) (e : positive).

Module Num.

Local Open Scope Z_scope.

(** [n < 0] *)
Definition ltb0 (n : number) : bool :=
  match n with
  | Inf s => s
  | Int z => z <? 0
  | Frac m _ => m <? 0
  | NaN | NegZero => false
  end.

(** [Number.isInteger], which is what lodash's [_.isInteger] computes on a
    number. *)
Definition isInteger (n : number) : bool :=
  match n with
  | Int _ | NegZero => true
  | _ => false
  end.

(** The integer a number denotes, when it denotes one. *)
Definition to_Z (n : number) : option Z :=
  match n with
  | Int z => Some z
  | NegZero => Some 0
  | _ => None
  end.

(** [a === b] on numbers: NaN equals nothing, the two zeros are equal. *)
Definition eqb (a b : number) : bool :=
  match to_Z a, to_Z b with
  | Some x, Some y => x =? y
  | _, _ =>
      match a, b with
      | Inf s, Inf t => Bool.eqb s t
      | Frac m e, Frac n f => (m =? n) && (e =? f)%positive
      | _, _ => false
      end
  end.

(** *** Rounding a ratio to the nearest double (ties to even) *)

Definition round_half_even (n d : Z) : Z :=
  let q := n / d in
  match (2 * (n mod d)) ?= d with
  | Lt => q
  | Gt => q + 1
  | Eq => if Z.even q then q else q + 1
  end.

(** [floor (log2 (n / d))] for positive [n] and [d]. *)
Definition floor_log2 (n d : Z) : Z :=
  let l := Z.log2 n - Z.log2 d in
  if (if 0 <=? l then d * 2 ^ l <=? n else d <=? n * 2 ^ (- l))
  then l else l - 1.

Fixpoint trailing_zeros (p : positive) : Z :=
  match p with
  | xO p' => 1 + trailing_zeros p'
  | _ => 0
  end.

(** The double [q * 2^k], negated when [neg], for [q > 0]. *)
Definition finite (neg : bool) (q k : Z) : number :=
  let sg := fun z => if neg then - z else z in
  if 0 <=? k then Int (sg (q * 2 ^ k))
  else
    let t := Z.min (trailing_zeros (Z.to_pos q)) (- k) in
    if t =? - k then Int (sg (q / 2 ^ t))
    else Frac (sg (q / 2 ^ t)) (Z.to_pos (- k - t)).

(** The double nearest to [n / d], negated when [neg], for [n >= 0] and
    [d > 0]: 53 bits of significand, exponents down to [-1074], overflow to
    the infinity. *)
Definition of_ratio (neg : bool) (n d : Z) : number :=
  if n =? 0 then (if neg then NegZero else Int 0)
  else
    let k := Z.max (floor_log2 n d - 52) (- 1074) in
    let q := if 0 <=? k then round_half_even n (d * 2 ^ k)
             else round_half_even (n * 2 ^ (- k)) d in
    if q =? 0 then (if neg then NegZero else Int 0)
    else if (971 <? k) || ((k =? 971) && (q =? 2 ^ 53)) then Inf neg
    else finite neg q k.

End Num.

(* ================================================================== *)
(** ** Strings *)

Module Str.

Local Open Scope nat_scope.

Definition code (c : ascii) : nat := nat_of_ascii c.

(** [String.prototype.toLowerCase] on code units below 256. *)
Definition lower_char (c : ascii) : ascii :=
  let n := code c in
  if ((65 <=? n) && (n <=? 90)) || ((192 <=? n) && (n <=? 222) && negb (n =? 215))
  then ascii_of_nat (n + 32) else c.

Fixpoint toLowerCase (s : string) : string :=
  match s with
  | EmptyString => EmptyString
  | String c s' => String (lower_char c) (toLowerCase s')
  end.

(** [String.prototype.toLocaleLowerCase].  The locales whose lower case is
    their own (Turkish, Azeri, Lithuanian) differ from [toLowerCase] on the
    letter I only, which does not bear on a comparison with [asc] or [desc]. *)
Definition toLocaleLowerCase (s : string) : string := toLowerCase s.

(** [s.split(sep)] for a one-character separator: never the empty list. *)
Fixpoint split (sep : ascii) (s : string) : list string :=
  match s with
  | EmptyString => [EmptyString]
  | String c s' =>
      if Ascii.eqb c sep then EmptyString :: split sep s'
      else match split sep s' with
           | [] => [String c EmptyString]
           | w :: ws => String c w :: ws
           end
  end.

(** [s.lastIndexOf(c)], [None] standing for [-1]. *)
Fixpoint lastIndexOf (c : ascii) (s : string) : option nat :=
  match s with
  | EmptyString => None
  | String a s' =>
      match lastIndexOf c s' with
      | Some i => Some (S i)
      | None => if Ascii.eqb a c then Some 0 else None
      end
  end.

(** [s.slice(n)] for [0 <= n]. *)
Fixpoint slice (n : nat) (s : string) : string :=
  match n, s with
  | O, _ => s
  | S n', String _ s' => slice n' s'
  | S _, EmptyString => EmptyString
  end.

(** [s.substring(0, n)] *)
Fixpoint substring0 (n : nat) (s : string) : string :=
  match n, s with
  | S n', String c s' => String c (substring0 n' s')
  | _, _ => EmptyString
  end.

(** [_.startsWith(s, c)] for a one-character target. *)
Definition startsWith (c : ascii) (s : string) : bool :=
  match s with
  | String a _ => Ascii.eqb a c
  | EmptyString => false
  end.

(** [xs.includes(s)] on an array of strings. *)
Definition includes (s : string) (xs : list string) : bool :=
  existsb (String.eqb s) xs.

Definition of_nat (n : nat) : string :=
  NilEmpty.string_of_uint (Nat.to_uint n).

(** The characters of [s] as one-character strings. *)
Fixpoint chars (s : string) : list string :=
  match s with
  | EmptyString => []
  | String c s' => String c EmptyString :: chars s'
  end.

Fixpoint rev_onto (s acc : string) : string :=
  match s with
  | EmptyString => acc
  | String c s' => rev_onto s' (String c acc)
  end.

Definition rev (s : string) : string := rev_onto s EmptyString.

(** White space and line terminators of the language, below 256. *)
Definition is_space (c : ascii) : bool :=
  let n := code c in
  ((9 <=? n) && (n <=? 13)) || (n =? 32) || (n =? 160).

Fixpoint trimStart (s : string) : string :=
  match s with
  | String c s' => if is_space c then trimStart s' else s
  | EmptyString => EmptyString
  end.

Definition trim (s : string) : string := rev (trimStart (rev (trimStart s))).

(** The value of a digit in a radix up to 16. *)
Definition digit (radix : nat) (c : ascii) : option Z :=
  let n := code c in
  let d := if (48 <=? n) && (n <=? 57) then Some (n - 48)
           else if (97 <=? n) && (n <=? 102) then Some (n - 87)
           else if (65 <=? n) && (n <=? 70) then Some (n - 55)
           else None in
  match d with
  | Some v => if v <? radix then Some (Z.of_nat v) else None
  | None => None
  end.

(** The longest prefix of digits: its value, its length, and what follows. *)
Fixpoint digits (radix : nat) (acc : Z) (len : nat) (s : string) : Z * nat * string :=
  match s with
  | String c s' =>
      match digit radix c with
      | Some v => digits radix (acc * Z.of_nat radix + v)%Z (S len) s'
      | None => (acc, len, s)
      end
  | EmptyString => (acc, len, s)
  end.

End Str.

(* ================================================================== *)
(** ** Values, exceptions, objects *)

(** A JavaScript value.  An object is the list of its own enumerable
    properties in enumeration order (keys are distinct in a well-formed
    object); arrays have no holes. *)
Inductive value : Type :=
| VUndefined
| VNull
| VBool (b : bool)
| VNum (n : number)
| VStr (s : string)
| VArr (elems : list value)
| VObj (props : list (string * value)).

(** The messages of the [Error]s the module throws, with the value each one
    interpolates. *)
Inductive message : Type :=
| ExpectedObject (got : string)        (* convertRestQueryParams expected an object got ... *)
| ExpectedArrayOfString (got : string) (* ... expected an array of string, got ... *)
| FoundNonString (got : string)        (* ... expected an array of string but found "..." *)
| FieldCannotBeEmpty                   (* Field cannot be empty *)
| OrderOneOf                           (* order can only be one of asc|desc|ASC|DESC *)
| StartExpectedPositive (got : number) (* convertStartQueryParams expected a positive integer got ... *)
| LimitExpectedPositive (got : number) (* convertLimitQueryParams expected a positive integer got ... *)
| PublicationStateExpected (allowed : list string) (got : value).

(** What a call can throw: an [Error] of the module (the specification's
    InvalidInput), or a [TypeError] raised by the language itself, as when a
    method is called on a value that has none. *)
Inductive exception : Type :=
| Error (msg : message)
| TypeError.

Inductive result (A : Type) : Type :=
| Ok (a : A)
| Throw (e : exception).

Arguments Ok {A} a.
Arguments Throw {A} e.

Definition bind {A B : Type} (r : result A) (k : A -> result B) : result B :=
  match r with
  | Ok a => k a
  | Throw e => Throw e
  end.

Notation "x <- r ;; k" := (bind r (fun x => k))
  (at level 61, r at next level, right associativity).

(** [xs.map(f)] for an [f] that may throw; the first exception wins. *)
Definition mapM {A B : Type} (f : A -> result B) : list A -> result (list B) :=
  fix go (l : list A) : result (list B) :=
    match l with
    | [] => Ok []
    | x :: l' => y <- f x ;; ys <- go l' ;; Ok (y :: ys)
    end.

(** [xs.reduce((acc, x) => acc.concat(f(x)), [])] *)
Definition concatMapM {A B : Type} (f : A -> result (list B)) : list A -> result (list B) :=
  fix go (l : list A) : result (list B) :=
    match l with
    | [] => Ok []
    | x :: l' => ys <- f x ;; zs <- go l' ;; Ok (ys ++ zs)
    end.

(** [Object.keys(o).forEach(k => out.push(f(k, o[k])))] *)
Definition mapEntriesM {B : Type} (f : string -> value -> result B)
  : list (string * value) -> result (list B) :=
  fix go (l : list (string * value)) : result (list B) :=
    match l with
    | [] => Ok []
    | p :: l' => match p with
                 | (k, v) => y <- f k v ;; ys <- go l' ;; Ok (y :: ys)
                 end
    end.

Definition typeof (v : value) : string :=
  match v with
  | VUndefined => "undefined"
  | VBool _ => "boolean"
  | VNum _ => "number"
  | VStr _ => "string"
  | VNull | VArr _ | VObj _ => "object"
  end.

(** The truth value of a condition. *)
Definition truthy (v : value) : bool :=
  match v with
  | VUndefined | VNull => false
  | VBool b => b
  | VNum NaN | VNum NegZero | VNum (Int 0) => false
  | VNum _ => true
  | VStr s => negb (s =? EmptyString)
  | VArr _ | VObj _ => true
  end.

Definition isString (v : value) : bool :=
  match v with VStr _ => true | _ => false end.

Module Obj.

Definition t : Type := list (string * value).

(** [o[k]] on own properties, [None] when [o] has no such property. *)
Fixpoint get (k : string) (o : t) : option value :=
  match o with
  | [] => None
  | (k', v) :: o' => if k' =? k then Some v else get k o'
  end.

Definition has (k : string) (o : t) : bool :=
  match get k o with Some _ => true | None => false end.

Definition keys (o : t) : list string := map fst o.

(** An array index: the canonical decimal form of an integer below
    [2^32 - 1].  Such keys are enumerated first, in ascending order. *)
Definition array_index (k : string) : option Z :=
  match k with
  | EmptyString => None
  | String c r =>
      match Str.digits 10 0 0 k with
      | (v, _, EmptyString) =>
          if Ascii.eqb c "0" && negb (r =? EmptyString) then None
          else if (v <? 2 ^ 32 - 1)%Z then Some v else None
      | _ => None
      end
  end.

Fixpoint replace (k : string) (v : value) (o : t) : t :=
  match o with
  | [] => []
  | (k', v') :: o' => if k' =? k then (k', v) :: o' else (k', v') :: replace k v o'
  end.

Fixpoint insert_index (i : Z) (k : string) (v : value) (o : t) : t :=
  match o with
  | [] => [(k, v)]
  | (k', v') :: o' =>
      match array_index k' with
      | Some j => if (i <? j)%Z then (k, v) :: o else (k', v') :: insert_index i k v o'
      | None => (k, v) :: o
      end
  end.

(** The assignment [o[k] = v] on an ordinary object: an existing property
    keeps its place, a new array index goes among the indices, any other new
    key goes last.  Assigning to [__proto__] creates no own property. *)
Definition set (k : string) (v : value) (o : t) : t :=
  if k =? "__proto__" then o
  else if has k o then replace k v o
  else match array_index k with
       | Some i => insert_index i k v o
       | None => o ++ [(k, v)]
       end.

(** The elements of an array under their indices. *)
Definition indexed (l : list value) : t :=
  combine (map Str.of_nat (seq 0 (List.length l))) l.

(** The own enumerable string-keyed properties of a value that is not null
    or undefined. *)
Definition own (v : value) : t :=
  match v with
  | VObj o => o
  | VArr l => indexed l
  | VStr s => indexed (map VStr (Str.chars s))
  | _ => []
  end.

(** [Object.assign(target, source)] *)
Definition assign (target : t) (source : value) : t :=
  fold_left (fun acc p => set (fst p) (snd p) acc) (own source) target.

(** [_.has(v, k)] for a key [k] that is not an array index. *)
Definition lodash_has (k : string) (v : value) : bool :=
  match v with
  | VObj o => has k o
  | _ => false
  end.

(** The property read [v.k], [undefined] when absent. *)
Definition prop (k : string) (v : value) : value :=
  match v with
  | VObj o => match get k o with Some x => x | None => VUndefined end
  | _ => VUndefined
  end.

(** [_.omit(v, ks)] for plain keys [ks]: a fresh object. *)
Definition omit (ks : list string) (v : value) : t :=
  filter (fun p => negb (Str.includes (fst p) ks)) (own v).

End Obj.

(** [Object.keys(v)]: throws on null and undefined. *)
Definition object_entries (v : value) : result Obj.t :=
  match v with
  | VNull | VUndefined => Throw TypeError
  | _ => Ok (Obj.own v)
  end.

(* ================================================================== *)
(** ** Coercion to a number *)

Module ToNumber.

Local Open Scope Z_scope.

Definition exponent (s : string) : option Z :=
  let '(neg, s1) := match s with
                    | String "-" r => (true, r)
                    | String "+" r => (false, r)
                    | _ => (false, s)
                    end in
  match Str.digits 10 0 0 s1 with
  | (v, S _, EmptyString) => Some (if neg then - v else v)
  | _ => None
  end.

(** StrUnsignedDecimalLiteral: [Infinity], or digits with an optional
    fraction and an optional exponent; anything else is NaN. *)
Definition unsigned_decimal (neg : bool) (s : string) : number :=
  if (s =? "Infinity")%string then Inf neg
  else
    let '(i, li, r1) := Str.digits 10 0 0 s in
    let '(f, lf, r2) := match r1 with
                        | String "." r => Str.digits 10 i 0 r
                        | _ => (i, O, r1)
                        end in
    if (li + lf =? 0)%nat then NaN
    else
      let ex := match r2 with
                | EmptyString => Some 0
                | String c r =>
                    if Ascii.eqb c "e" || Ascii.eqb c "E" then exponent r else None
                end in
      match ex with
      | None => NaN
      | Some e =>
          let p := e - Z.of_nat lf in
          if 0 <=? p then Num.of_ratio neg (f * 10 ^ p) 1
          else Num.of_ratio neg f (10 ^ (- p))
      end.

Definition radix_literal (radix : nat) (s : string) : number :=
  match Str.digits radix 0 0 s with
  | (v, S _, EmptyString) => Num.of_ratio false v 1
  | _ => NaN
  end.

(** The number a string converts to (unary [+] on a string): white space is
    trimmed, the empty string is [0], a literal that does not parse is NaN,
    and the mathematical value is rounded to the nearest double.  lodash's
    [_.toNumber] treats binary, octal and signed hexadecimal literals apart,
    with the results unary [+] gives them. *)
Definition of_string (s : string) : number :=
  match Str.trim s with
  | EmptyString => Int 0
  | String "0" (String "x" r) | String "0" (String "X" r) => radix_literal 16 r
  | String "0" (String "o" r) | String "0" (String "O" r) => radix_literal 8 r
  | String "0" (String "b" r) | String "0" (String "B" r) => radix_literal 2 r
  | String "+" r => unsigned_decimal false r
  | String "-" r => unsigned_decimal true r
  | t => unsigned_decimal false t
  end.

End ToNumber.

(* ================================================================== *)
(** ** What the module takes from outside *)

(** [DP_PUB_STATES] is the constant of [./content-types]; the other two fields
    are the parts of lodash that are left open: [_.set] on a fresh object for a
    path that is not a single plain key, and [_.toNumber] on an array or an
    object, which goes through the [valueOf]/[toString] protocol. *)
Record platform : Type := {
  DP_PUB_STATES : list string;
  set_path : string -> value -> value;
  toNumber_object : value -> result number
}.

Definition contains_char (c : ascii) (s : string) : bool :=
  match Str.lastIndexOf c s with Some _ => true | None => false end.

(** A path that lodash takes as one key of the fresh object: it has no [.] and
    no [[], and is none of the keys [_.set] may refuse to write. *)
Definition plain_key (path : string) : bool :=
  negb (contains_char "." path) && negb (contains_char "[" path)
  && negb (Str.includes path ["__proto__"; "constructor"; "prototype"]).

(** [_.set({}, path, v)] *)
Definition lodash_set (P : platform) (path : string) (v : value) : value :=
  if plain_key path then VObj [(path, v)] else set_path P path v.

(** [_.toNumber(v)] *)
Definition toNumber (P : platform) (v : value) : result number :=
  match v with
  | VNum n => Ok n
  | VStr s => Ok (ToNumber.of_string s)
  | VUndefined => Ok NaN
  | VNull => Ok (Int 0)
  | VBool b => Ok (Int (if b then 1 else 0))
  | VArr _ | VObj _ => toNumber_object P v
  end.

(* ================================================================== *)
(** ** The module *)

Definition BOOLEAN_OPERATORS : list string := ["or"; "and"].
Definition QUERY_OPERATORS : list string := ["_where"; "_or"; "_and"].

(** List of all the possible filters *)
Definition VALID_REST_OPERATORS : list string :=
  ["eq"; "ne"; "in"; "nin"; "contains"; "ncontains"; "containss"; "ncontainss";
   "lt"; "lte"; "gt"; "gte"; "null"].

(** Convert params prefixed with _ by removing the prefix. *)
Definition convertExtraRootParams (params : Obj.t) : Obj.t :=
  fold_left
    (fun acc p =>
       let '(key, val) := p in
       if Str.startsWith "_" key && negb (Str.includes key QUERY_OPERATORS)
       then Obj.set (Str.slice 1 key) val acc
       else Obj.set key val acc)
    params [].

(** One clause of the sort query: [field] or [field:order]. *)
Definition convertSortClause (P : platform) (clause : value) : result value :=
  match clause with
  | VStr s =>
      let parts := Str.split ":" s in
      let field := hd EmptyString parts in
      let order := nth 1 parts "asc" in
      if (String.length field =? 0)%nat then Throw (Error FieldCannotBeEmpty)
      else if negb (Str.includes (Str.toLocaleLowerCase order) ["asc"; "desc"])
           then Throw (Error OrderOneOf)
           else Ok (lodash_set P field (VStr (Str.toLowerCase order)))
  | _ => Throw TypeError (* clause.split is not a function *)
  end.

(** Sort query parser *)
Definition convertSortQueryParams (P : platform) (sortQuery : value) : result (list value) :=
  let sortQuery := match sortQuery with
                   | VStr s => VArr (map VStr (Str.split "," s))
                   | _ => sortQuery
                   end in
  match sortQuery with
  | VArr clauses =>
      let invalidClauseType :=
        match find (fun clause => negb (isString clause)) clauses with
        | Some clause => clause
        | None => VUndefined
        end in
      if truthy invalidClauseType
      then Throw (Error (FoundNonString (typeof invalidClauseType)))
      else mapM (convertSortClause P) clauses
  | _ => Throw (Error (ExpectedArrayOfString (typeof sortQuery)))
  end.

(** Start query parser *)
Definition convertStartQueryParams (P : platform) (startQuery : value) : result number :=
  startAsANumber <- toNumber P startQuery ;;
  if negb (Num.isInteger startAsANumber) || Num.ltb0 startAsANumber
  then Throw (Error (StartExpectedPositive startAsANumber))
  else Ok startAsANumber.

(** Limit query parser *)
Definition convertLimitQueryParams (P : platform) (limitQuery : value) : result number :=
  limitAsANumber <- toNumber P limitQuery ;;
  if negb (Num.isInteger limitAsANumber)
     || (negb (Num.eqb limitAsANumber (Int (-1))) && Num.ltb0 limitAsANumber)
  then Throw (Error (LimitExpectedPositive limitAsANumber))
  else Ok limitAsANumber.

(** publicationState query parser *)
Definition convertPublicationStateParams (P : platform) (publicationState : value)
  : result value :=
  let known := match publicationState with
               | VStr s => Str.includes s (DP_PUB_STATES P)
               | _ => false
               end in
  if negb known
  then Throw (Error (PublicationStateExpected (DP_PUB_STATES P) publicationState))
  else Ok (VObj [("publicationState", publicationState)]).

(** Parse single where param.  [convertWhereParams] is the parser the boolean
    groups are sent back to. *)
Definition convertWhereClause (convertWhereParams : value -> result (list value))
  (whereClause : string) (val : value) : result value :=
  match Str.lastIndexOf "_" whereClause with
  | None => Ok (VObj [("field", VStr whereClause); ("value", val)])
  | Some separatorIndex =>
      let field := Str.substring0 separatorIndex whereClause in
      let operator := Str.slice (S separatorIndex) whereClause in
      if Str.includes operator BOOLEAN_OPERATORS && (field =? EmptyString)
      then
        groups <- match val with
                  | VArr elems => mapM convertWhereParams elems
                  | _ => group <- convertWhereParams val ;; Ok [group]
                  end ;;
        Ok (VObj [("field", VNull); ("operator", VStr operator);
                  ("value", VArr (map VArr groups))])
      else if negb (Str.includes operator VALID_REST_OPERATORS)
      then Ok (VObj [("field", VStr whereClause); ("value", val)])
      else Ok (VObj [("field", VStr field); ("operator", VStr operator); ("value", val)])
  end.

(** [const { field, operator = 'eq', value } = parsed] and the clause pushed. *)
Definition pushedClause (parsed : value) : value :=
  let operator := match Obj.prop "operator" parsed with
                  | VUndefined => VStr "eq"
                  | op => op
                  end in
  VObj [("field", Obj.prop "field" parsed); ("operator", operator);
        ("value", Obj.prop "value" parsed)].

(** The parser handed to [convertWhereClause] for the keys of a string, which
    are array indices: none of them is [_or] or [_and], so it is never
    called. *)
Definition noGroups (v : value) : result (list value) := Ok [].

(** Parse where params *)
Fixpoint convertWhereParams (whereParams : value) : result (list value) :=
  match whereParams with
  | VArr elems => concatMapM convertWhereParams elems
  | VObj props =>
      mapEntriesM
        (fun whereClause val =>
           parsed <- convertWhereClause convertWhereParams whereClause val ;;
           Ok (pushedClause parsed))
        props
  | VStr s =>
      mapEntriesM
        (fun whereClause val =>
           parsed <- convertWhereClause noGroups whereClause val ;;
           Ok (pushedClause parsed))
        (Obj.own whereParams)
  | VNull | VUndefined => Throw TypeError (* Object.keys of null or undefined *)
  | VBool _ | VNum _ => Ok []
  end.

(** Global converter *)
Definition convertRestQueryParams (P : platform) (params defaults : value) : result value :=
  let params := match params with VUndefined => VObj [] | _ => params end in
  let defaults := match defaults with VUndefined => VObj [] | _ => defaults end in
  if negb (typeof params =? "object") || match params with VNull => true | _ => false end
  then Throw (Error (ExpectedObject
                       (match params with VNull => "null" | _ => typeof params end)))
  else
    let finalParams :=
      Obj.assign [("start", VNum (Int 0)); ("limit", VNum (Int 100))] defaults in
    if (List.length (Obj.keys (Obj.own params)) =? 0)%nat then Ok (VObj finalParams)
    else
      finalParams <-
        (if Obj.lodash_has "_sort" params
         then sort <- convertSortQueryParams P (Obj.prop "_sort" params) ;;
              Ok (Obj.set "sort" (VArr sort) finalParams)
         else Ok finalParams) ;;
      finalParams <-
        (if Obj.lodash_has "_start" params
         then start <- convertStartQueryParams P (Obj.prop "_start" params) ;;
              Ok (Obj.set "start" (VNum start) finalParams)
         else Ok finalParams) ;;
      finalParams <-
        (if Obj.lodash_has "_limit" params
         then limit <- convertLimitQueryParams P (Obj.prop "_limit" params) ;;
              Ok (Obj.set "limit" (VNum limit) finalParams)
         else Ok finalParams) ;;
      finalParams <-
        (if Obj.lodash_has "_publicationState" params
         then state <- convertPublicationStateParams P (Obj.prop "_publicationState" params) ;;
              Ok (Obj.assign finalParams state)
         else Ok finalParams) ;;
      let whereParams :=
        convertExtraRootParams
          (Obj.omit ["_sort"; "_start"; "_limit"; "_where"; "_publicationState"] params) in
      extraClauses <-
        (if (0 <? List.length (Obj.keys whereParams))%nat
         then convertWhereParams (VObj whereParams)
         else Ok []) ;;
      whereClauses <-
        (if Obj.lodash_has "_where" params
         then clauses <- convertWhereParams (Obj.prop "_where" params) ;;
              Ok (extraClauses ++ clauses)
         else Ok extraClauses) ;;
      Ok (VObj (Obj.assign finalParams (VObj [("where", VArr whereClauses)]))).

(* ================================================================== *)
(** ** Vocabulary of the statements *)

(** A platform to evaluate on: the publication states of the content-type
    module, a deep path kept as one key, an object coerced to NaN. *)
Definition sample_platform : platform :=
  {| DP_PUB_STATES := ["live"; "preview"];
     set_path := fun path v => VObj [(path, v)];
     toNumber_object := fun _ => Ok NaN |}.

Definition num (z : Z) : value := VNum (Int z).

(** [{field, operator, value}] with a field name. *)
Definition leafClause (field operator : string) (val : value) : value :=
  VObj [("field", VStr field); ("operator", VStr operator); ("value", val)].

(** [{field: null, operator, value: groups}] *)
Definition booleanClause (operator : string) (groups : list (list value)) : value :=
  VObj [("field", VNull); ("operator", VStr operator); ("value", VArr (map VArr groups))].

(** What the clause-key splitter returns for a key with no operator:
    [{field, value}]. *)
Definition fieldOnly (field : string) (val : value) : value :=
  VObj [("field", VStr field); ("value", val)].

(** The clauses of a where list, at any depth: its elements, and the clauses
    of every group of a boolean composition among them. *)
Inductive clause_in (c : value) : value -> Prop :=
| clause_here (clauses : list value) :
    In c clauses -> clause_in c (VArr clauses)
| clause_nested (clauses : list value) (b : value) (groups : list value) (g : value) :
    In b clauses ->
    Obj.prop "field" b = VNull ->
    Obj.prop "value" b = VArr groups ->
    In g groups ->
    clause_in c g ->
    clause_in c (VArr clauses).

(** The shape of a parsed clause: a leaf with an operator of the vocabulary, or
    a boolean composition of lists of such clauses. *)
Inductive clause_tree : value -> Prop :=
| tree_leaf (field operator : string) (val : value) :
    In operator VALID_REST_OPERATORS ->
    clause_tree (leafClause field operator val)
| tree_boolean (operator : string) (groups : list (list value)) :
    In operator BOOLEAN_OPERATORS ->
    Forall (Forall clause_tree) groups ->
    clause_tree (booleanClause operator groups).

(** The number is an integer, and not below zero. *)
Definition nonneg_integer (n : number) : Prop :=
  exists z : Z, Num.to_Z n = Some z /\ (0 <= z)%Z.

(** The number is [-1]. *)
Definition minus_one (n : number) : Prop := Num.to_Z n = Some (-1)%Z.

(** The call failed with an [Error] of the module. *)
Definition invalid_input {A : Type} (r : result A) : Prop :=
  exists msg, r = Throw (Error msg).

(** The keys the dispatcher keeps out of the extra-root params. *)
Definition RESERVED_ROOT_KEYS : list string :=
  ["_sort"; "_start"; "_limit"; "_where"; "_publicationState"].

(** The extra-root params of [params], as the dispatcher builds them. *)
Definition extraRootParams (params : value) : Obj.t :=
  convertExtraRootParams (Obj.omit RESERVED_ROOT_KEYS params).

(** The steps of the dispatcher once the params are known not to be empty,
    each on the descriptor built so far. *)
Definition sortStep (P : platform) (params : value) (finalParams : Obj.t) : result Obj.t :=
  if Obj.lodash_has "_sort" params
  then sort <- convertSortQueryParams P (Obj.prop "_sort" params) ;;
       Ok (Obj.set "sort" (VArr sort) finalParams)
  else Ok finalParams.

Definition startStep (P : platform) (params : value) (finalParams : Obj.t) : result Obj.t :=
  if Obj.lodash_has "_start" params
  then start <- convertStartQueryParams P (Obj.prop "_start" params) ;;
       Ok (Obj.set "start" (VNum start) finalParams)
  else Ok finalParams.

Definition limitStep (P : platform) (params : value) (finalParams : Obj.t) : result Obj.t :=
  if Obj.lodash_has "_limit" params
  then limit <- convertLimitQueryParams P (Obj.prop "_limit" params) ;;
       Ok (Obj.set "limit" (VNum limit) finalParams)
  else Ok finalParams.

Definition publicationStateStep (P : platform) (params : value) (finalParams : Obj.t)
  : result Obj.t :=
  if Obj.lodash_has "_publicationState" params
  then state <- convertPublicationStateParams P (Obj.prop "_publicationState" params) ;;
       Ok (Obj.assign finalParams state)
  else Ok finalParams.

Definition extraRootStep (params : value) : result (list value) :=
  if (0 <? List.length (Obj.keys (extraRootParams params)))%nat
  then convertWhereParams (VObj (extraRootParams params))
  else Ok [].

Definition whereStep (params : value) (extraClauses : list value) : result (list value) :=
  if Obj.lodash_has "_where" params
  then clauses <- convertWhereParams (Obj.prop "_where" params) ;;
       Ok (extraClauses ++ clauses)
  else Ok extraClauses.

(** The descriptor before the params are looked at. *)
Definition seededParams (defaults : value) : Obj.t :=
  Obj.assign [("start", VNum (Int 0)); ("limit", VNum (Int 100))] defaults.

(** Raw params that pass the guard of the dispatcher and are not empty. *)
Definition nonempty_params (params : value) : Prop :=
  typeof params = "object" /\ params <> VNull /\ Obj.own params <> [].




(** The key an extra-root key is stored under. *)
Definition strippedKey (key : string) : string :=
  if Str.startsWith "_" key && negb (Str.includes key QUERY_OPERATORS)
  then Str.slice 1 key else key.

(** The field and the order of a sort clause [field] or [field:order]. *)
Definition sortField (clause : string) : string :=
  hd EmptyString (Str.split ":" clause).

Definition sortOrder (clause : string) : string :=
  Str.toLowerCase (nth 1 (Str.split ":" clause) "asc").

(** A sort clause the parser accepts: a field that is not empty, and an order
    that is [asc] or [desc] once in lower case. *)
Definition valid_sort_clause (clause : string) : Prop :=
  sortField clause <> EmptyString /\ In (sortOrder clause) ["asc"; "desc"].

(** The value the extra-root params hold under [target]: that of the last
    key of [params] that is stored under [target]. *)
Definition lastWriter (target : string) (params : Obj.t) : option value :=
  option_map snd (find (fun p => strippedKey (fst p) =? target) (rev params)).

(** The top-level keys that go to a scalar parser. *)
Definition SCALAR_KEYS : list string :=
  ["_sort"; "_start"; "_limit"; "_publicationState"].

(** The keys of the descriptor the dispatcher writes. *)
Definition DESCRIPTOR_KEYS : list string :=
  ["sort"; "start"; "limit"; "publicationState"; "where"].

(** The parameter is absent, or its parser accepts it. *)
Definition accepted {A : Type} (parser : value -> result A) (key : string)
  (params : value) : Prop :=
  Obj.lodash_has key params = true -> exists a, parser (Obj.prop key params) = Ok a.

(** The sort entry built for one clause. *)
Definition sortEntry (P : platform) (clause : string) : value :=
  lodash_set P (sortField clause) (VStr (sortOrder clause)).

(** A decimal digit, and the strings made of decimal digits. *)
Definition is_decimal_digit (c : ascii) : bool :=
  ((48 <=? Str.code c) && (Str.code c <=? 57))%nat.

Fixpoint all_digits (s : string) : bool :=
  match s with
  | EmptyString => true
  | String c s' => is_decimal_digit c && all_digits s'
  end.


(* ================================================================== *)
(** ** Induction on values *)

Section ValueInduction.

Variable Q : value -> Prop.
Hypothesis Q_undefined : Q VUndefined.
Hypothesis Q_null : Q VNull.
Hypothesis Q_bool : forall b, Q (VBool b).
Hypothesis Q_num : forall n, Q (VNum n).
Hypothesis Q_str : forall s, Q (VStr s).
Hypothesis Q_arr : forall elems, Forall Q elems -> Q (VArr elems).
Hypothesis Q_obj : forall props, Forall (fun p => Q (snd p)) props -> Q (VObj props).

Fixpoint value_nested_ind (v : value) : Q v :=
  match v with
  | VUndefined => Q_undefined
  | VNull => Q_null
  | VBool b => Q_bool b
  | VNum n => Q_num n
  | VStr s => Q_str s
  | VArr elems =>
      Q_arr elems
        ((fix go (l : list value) : Forall Q l :=
            match l with
            | [] => Forall_nil Q
            | x :: l' => Forall_cons x (value_nested_ind x) (go l')
            end) elems)
  | VObj props =>
      Q_obj props
        ((fix go (l : list (string * value)) : Forall (fun p => Q (snd p)) l :=
            match l with
            | [] => Forall_nil _
            | p :: l' =>
                Forall_cons p
                  (match p as p0 return Q (snd p0) with
                   | (_, x) => value_nested_ind x
                   end)
                  (go l')
            end) props)
  end.

End ValueInduction.

(* ================================================================== *)
(** ** The result monad and the list traversals *)

Lemma bind_Ok {A B : Type} (r : result A) (k : A -> result B) (b : B) :
  bind r k = Ok b -> exists a, r = Ok a /\ k a = Ok b.
Proof.
  destruct r as [a | e]; simpl; intros H.
  - exists a. split; [reflexivity | exact H].
  - discriminate H.
Qed.

Ltac inv_bind H :=
  let a := fresh "a" in
  let Ha := fresh "Ha" in
  apply bind_Ok in H; destruct H as [a [Ha H]].

Ltac inv_Ok H := injection H as H; try subst.


Lemma mapEntriesM_Ok_Forall {B : Type} (f : string -> value -> result B)
  (R : B -> Prop) (o : Obj.t) (ys : list B) :
  (forall k v y, In (k, v) o -> f k v = Ok y -> R y) ->
  mapEntriesM f o = Ok ys -> Forall R ys.
Proof.
  revert ys. induction o as [| [k v] o IH]; simpl; intros ys HR H.
  - inv_Ok H. constructor.
  - inv_bind H. inv_bind H. inv_Ok H. constructor.
    + eapply HR; [left; reflexivity | eassumption].
    + apply IH; [| assumption]. intros k' v' y Hin. apply HR. now right.
Qed.

Lemma concatMapM_Ok_Forall {A B : Type} (f : A -> result (list B))
  (R : B -> Prop) (l : list A) (ys : list B) :
  Forall (fun x => forall zs, f x = Ok zs -> Forall R zs) l ->
  concatMapM f l = Ok ys -> Forall R ys.
Proof.
  intros HF. revert ys. induction HF as [| x l Hx HF IH]; simpl; intros ys H.
  - inv_Ok H. constructor.
  - inv_bind H. inv_bind H. inv_Ok H. apply Forall_app. split; auto.
Qed.

(* ================================================================== *)
(** ** Strings: the last underscore *)

Lemma includes_In (s : string) (xs : list string) :
  Str.includes s xs = true <-> In s xs.
Proof.
  unfold Str.includes. rewrite existsb_exists. split.
  - intros [x [Hin Heq]]. apply String.eqb_eq in Heq. now subst.
  - intros Hin. exists s. split; [exact Hin | apply String.eqb_refl].
Qed.

Lemma includes_not_In (s : string) (xs : list string) :
  Str.includes s xs = false <-> ~ In s xs.
Proof.
  rewrite <- includes_In. destruct (Str.includes s xs); split; congruence.
Qed.

Lemma contains_char_false (c : ascii) (s : string) :
  contains_char c s = false <-> Str.lastIndexOf c s = None.
Proof.
  unfold contains_char. destruct (Str.lastIndexOf c s); split; congruence.
Qed.

Lemma lastIndexOf_split (c : ascii) (prefix suffix : string) :
  Str.lastIndexOf c suffix = None ->
  Str.lastIndexOf c (prefix ++ String c suffix)%string = Some (String.length prefix).
Proof.
  intros Hs. induction prefix as [| a prefix IH]; simpl.
  - rewrite Hs, Ascii.eqb_refl. reflexivity.
  - rewrite IH. reflexivity.
Qed.

Lemma substring0_app (prefix rest : string) :
  Str.substring0 (String.length prefix) (prefix ++ rest)%string = prefix.
Proof.
  induction prefix as [| a prefix IH]; simpl.
  - destruct rest; reflexivity.
  - now rewrite IH.
Qed.

Lemma slice_app (c : ascii) (prefix suffix : string) :
  Str.slice (S (String.length prefix)) (prefix ++ String c suffix)%string = suffix.
Proof.
  induction prefix as [| a prefix IH]; simpl.
  - destruct suffix; reflexivity.
  - exact IH.
Qed.

Lemma valid_not_boolean (operator : string) :
  In operator VALID_REST_OPERATORS -> Str.includes operator BOOLEAN_OPERATORS = false.
Proof.
  intros H. simpl in H.
  repeat (destruct H as [<- | H]; [reflexivity |]). contradiction.
Qed.

(** What the splitter does on a key cut at its last underscore. *)
Lemma convertWhereClause_split (rec : value -> result (list value))
  (prefix suffix : string) (val : value) :
  contains_char "_" suffix = false ->
  convertWhereClause rec (prefix ++ String "_" suffix)%string val =
    if Str.includes suffix BOOLEAN_OPERATORS && (prefix =? EmptyString)
    then groups <- match val with
                   | VArr elems => mapM rec elems
                   | _ => group <- rec val ;; Ok [group]
                   end ;;
         Ok (booleanClause suffix groups)
    else if negb (Str.includes suffix VALID_REST_OPERATORS)
         then Ok (fieldOnly (prefix ++ String "_" suffix)%string val)
         else Ok (VObj [("field", VStr prefix); ("operator", VStr suffix); ("value", val)]).
Proof.
  intros Hs. apply contains_char_false in Hs.
  unfold convertWhereClause.
  rewrite (lastIndexOf_split _ _ _ Hs), substring0_app, slice_app.
  reflexivity.
Qed.

(* ================================================================== *)
(** ** The clause-key splitter *)

(** C3.  A key is cut at its last underscore.  When the suffix is an operator
    of the vocabulary the splitter returns the prefix as the field and the
    suffix as the operator; when it is not (and the key is not exactly [_or]
    or [_and]), and when the key has no underscore at all, it returns the whole
    key as the field and no operator, which the clause parser reads as
    equality.  So [price_gte] with 10 gives field [price], operator [gte],
    value 10, and [first_name] with ["Jo"] keeps [first_name] as the field. *)
Theorem convertWhereClause_disambiguation :
  (forall (rec : value -> result (list value)) (prefix suffix : string) (val : value),
      contains_char "_" suffix = false ->
      (In suffix VALID_REST_OPERATORS ->
       convertWhereClause rec (prefix ++ String "_" suffix)%string val =
         Ok (VObj [("field", VStr prefix); ("operator", VStr suffix); ("value", val)]))
      /\ (~ In suffix VALID_REST_OPERATORS ->
          (prefix ++ String "_" suffix)%string <> "_or" ->
          (prefix ++ String "_" suffix)%string <> "_and" ->
          convertWhereClause rec (prefix ++ String "_" suffix)%string val =
            Ok (fieldOnly (prefix ++ String "_" suffix)%string val))
      /\ convertWhereClause rec suffix val = Ok (fieldOnly suffix val))
  /\ (forall rec, convertWhereClause rec "price_gte" (num 10)
                  = Ok (VObj [("field", VStr "price"); ("operator", VStr "gte");
                              ("value", num 10)]))
  /\ (forall rec, convertWhereClause rec "first_name" (VStr "Jo")
                  = Ok (fieldOnly "first_name" (VStr "Jo"))).
Proof.
  split; [| split; intros rec; reflexivity].
  intros rec prefix suffix val Hs. repeat split.
  - intros Hin. rewrite (convertWhereClause_split _ _ _ _ Hs).
    rewrite (valid_not_boolean _ Hin).
    apply includes_In in Hin. rewrite Hin. reflexivity.
  - intros Hnot Hor Hand. rewrite (convertWhereClause_split _ _ _ _ Hs).
    apply includes_not_In in Hnot. rewrite Hnot.
    destruct (Str.includes suffix BOOLEAN_OPERATORS && (prefix =? EmptyString)) eqn:Hb;
      [| reflexivity].
    apply andb_true_iff in Hb. destruct Hb as [Hb Hp].
    apply includes_In in Hb. apply String.eqb_eq in Hp. subst prefix.
    simpl in Hb. destruct Hb as [<- | [<- | []]]; [now elim Hor | now elim Hand].
  - apply contains_char_false in Hs. unfold convertWhereClause. rewrite Hs. reflexivity.
Qed.

Lemma convertWhereClause_disambiguation_witness :
  contains_char "_" "gte" = false
  /\ convertWhereClause noGroups ("price" ++ String "_" "gte")%string (num 10)
     = Ok (VObj [("field", VStr "price"); ("operator", VStr "gte"); ("value", num 10)])
  /\ convertWhereClause noGroups ("first" ++ String "_" "name")%string (VStr "Jo")
     = Ok (fieldOnly "first_name" (VStr "Jo")).
Proof.
  split; [reflexivity |]. split.
  - apply (proj1 convertWhereClause_disambiguation noGroups "price" "gte" (num 10)
             eq_refl).
    simpl. tauto.
  - apply (proj1 convertWhereClause_disambiguation noGroups "first" "name" (VStr "Jo")
             eq_refl).
    + simpl. intros H.
      repeat (destruct H as [H | H]; [discriminate H |]). exact H.
    + discriminate.
    + discriminate.
Defined.

(* ================================================================== *)
(** ** Objects: reading after writing *)

Lemma has_get (k : string) (o : Obj.t) :
  Obj.has k o = false <-> Obj.get k o = None.
Proof.
  unfold Obj.has. destruct (Obj.get k o); split; congruence.
Qed.

Lemma get_replace_same (k : string) (v : value) (o : Obj.t) :
  Obj.has k o = true -> Obj.get k (Obj.replace k v o) = Some v.
Proof.
  unfold Obj.has. induction o as [| [k' v'] o IH]; simpl.
  - discriminate.
  - destruct (k' =? k) eqn:E; simpl; rewrite E; [reflexivity | exact IH].
Qed.

Lemma get_replace_other (k k' : string) (v : value) (o : Obj.t) :
  k <> k' -> Obj.get k (Obj.replace k' v o) = Obj.get k o.
Proof.
  intros Hne. induction o as [| [k0 v0] o IH]; simpl; [reflexivity |].
  destruct (k0 =? k') eqn:E; simpl.
  - apply String.eqb_eq in E. subst k0.
    apply not_eq_sym in Hne. apply String.eqb_neq in Hne. now rewrite Hne.
  - now rewrite IH.
Qed.

Lemma get_insert_index_same (i : Z) (k : string) (v : value) (o : Obj.t) :
  Obj.get k o = None -> Obj.get k (Obj.insert_index i k v o) = Some v.
Proof.
  induction o as [| [k' v'] o IH]; simpl; intros H.
  - now rewrite String.eqb_refl.
  - destruct (k' =? k) eqn:E; [discriminate H |].
    destruct (Obj.array_index k') as [j |]; [destruct (i <? j)%Z |]; simpl;
      rewrite ?String.eqb_refl, ?E; auto.
Qed.

Lemma get_insert_index_other (i : Z) (k k' : string) (v : value) (o : Obj.t) :
  k <> k' -> Obj.get k (Obj.insert_index i k' v o) = Obj.get k o.
Proof.
  intros Hne. apply not_eq_sym in Hne. apply String.eqb_neq in Hne.
  induction o as [| [k0 v0] o IH]; simpl.
  - now rewrite Hne.
  - destruct (Obj.array_index k0) as [j |]; [destruct (i <? j)%Z |]; simpl;
      rewrite ?Hne, ?IH; reflexivity.
Qed.

Lemma get_app_last (k k' : string) (v : value) (o : Obj.t) :
  Obj.get k (o ++ [(k', v)]) =
    match Obj.get k o with
    | Some x => Some x
    | None => if k' =? k then Some v else None
    end.
Proof.
  induction o as [| [k0 v0] o IH]; simpl; [reflexivity |].
  destruct (k0 =? k); [reflexivity | exact IH].
Qed.

(** Reading [k] after the assignment [o[k'] = v]. *)
Lemma get_set (k k' : string) (v : value) (o : Obj.t) :
  Obj.get k (Obj.set k' v o) =
    if k' =? "__proto__" then Obj.get k o
    else if k' =? k then Some v
    else Obj.get k o.
Proof.
  unfold Obj.set. destruct (k' =? "__proto__"); [reflexivity |].
  destruct (k' =? k) eqn:E.
  - apply String.eqb_eq in E. subst k'.
    destruct (Obj.has k o) eqn:Hh.
    + now apply get_replace_same.
    + apply has_get in Hh.
      destruct (Obj.array_index k).
      * now apply get_insert_index_same.
      * rewrite get_app_last, Hh, String.eqb_refl. reflexivity.
  - assert (Hne : k <> k') by (intros ->; rewrite String.eqb_refl in E; discriminate).
    destruct (Obj.has k' o).
    + now apply get_replace_other.
    + destruct (Obj.array_index k').
      * now apply get_insert_index_other.
      * rewrite get_app_last, E. now destruct (Obj.get k o).
Qed.

Lemma get_In (k : string) (v : value) (o : Obj.t) :
  Obj.get k o = Some v -> In (k, v) o.
Proof.
  induction o as [| [k' v'] o IH]; simpl; [discriminate |].
  destruct (k' =? k) eqn:E.
  - intros H. injection H as ->. apply String.eqb_eq in E. subst. now left.
  - intros H. right. now apply IH.
Qed.

(* ================================================================== *)
(** ** The dispatcher on empty params *)

(** C1 (as amended).  With empty raw params and empty defaults the dispatcher
    returns the seed [{start: 0, limit: 100}] as it is: the early exit comes
    before the where list is assigned, so the descriptor has no [where] key,
    and no [sort] or [publicationState] key either. *)
Theorem convertRestQueryParams_empty (P : platform) :
  let seed := VObj [("start", num 0); ("limit", num 100)] in
  convertRestQueryParams P (VObj []) (VObj []) = Ok seed
  /\ Obj.lodash_has "where" seed = false
  /\ Obj.lodash_has "sort" seed = false
  /\ Obj.lodash_has "publicationState" seed = false.
Proof.
  repeat split.
Qed.

(** C1 as the specification states it fails: the descriptor returned for empty
    params and empty defaults is not [{start: 0, limit: 100, where: []}], it has
    no where list. *)
Lemma empty_params_have_no_where :
  convertRestQueryParams sample_platform (VObj []) (VObj [])
    <> Ok (VObj [("start", num 0); ("limit", num 100); ("where", VArr [])])
  /\ exists r, convertRestQueryParams sample_platform (VObj []) (VObj []) = Ok r
               /\ Obj.lodash_has "where" r = false.
Proof.
  split.
  - cbv. discriminate.
  - eexists. split; reflexivity.
Qed.

(* ================================================================== *)
(** ** Boolean composition under [_where] *)

(** C4 (as amended).  [{_or: [{a: 1}, {b: 2}]}] passed as [_where] gives a
    where list of one clause, with a null field, operator [or], and as value
    the list of the two sub-groups, each parsed on its own by the clause
    parser: the sub-clauses are [{field: "a", operator: "eq", value: 1}] and
    [{field: "b", operator: "eq", value: 2}], with the operator written
    out. *)
Theorem where_or_single_clause (P : platform) :
  let groups := VArr [VObj [("a", num 1)]; VObj [("b", num 2)]] in
  convertRestQueryParams P (VObj [("_where", VObj [("_or", groups)])]) (VObj [])
    = Ok (VObj [("start", num 0); ("limit", num 100);
                ("where", VArr [booleanClause "or"
                                  [[leafClause "a" "eq" (num 1)];
                                   [leafClause "b" "eq" (num 2)]]])])
  /\ mapM convertWhereParams [VObj [("a", num 1)]; VObj [("b", num 2)]]
     = Ok [[leafClause "a" "eq" (num 1)]; [leafClause "b" "eq" (num 2)]].
Proof.
  split; reflexivity.
Qed.

(** C4 as the specification states it fails: the sub-clauses of the clause
    returned are not [{field: "a", value: 1}] and [{field: "b", value: 2}],
    they carry an [operator] key. *)
Lemma where_or_subclauses_carry_operator :
  let groups := VArr [VObj [("a", num 1)]; VObj [("b", num 2)]] in
  let claimed :=
    VObj [("field", VNull); ("operator", VStr "or");
          ("value", VArr [VArr [fieldOnly "a" (num 1)];
                          VArr [fieldOnly "b" (num 2)]])] in
  exists r,
    convertRestQueryParams sample_platform
      (VObj [("_where", VObj [("_or", groups)])]) (VObj []) = Ok r
    /\ Obj.prop "where" r <> VArr [claimed]
    /\ exists clause subclause rest,
         Obj.prop "where" r = VArr [clause]
         /\ Obj.prop "value" clause = VArr (VArr [subclause] :: rest)
         /\ subclause <> fieldOnly "a" (num 1)
         /\ Obj.prop "field" subclause = VStr "a"
         /\ Obj.prop "operator" subclause = VStr "eq".
Proof.
  intros groups claimed. eexists. split; [reflexivity |].
  split; [cbv; discriminate |].
  do 3 eexists. split; [reflexivity |]. split; [reflexivity |].
  split; [cbv; discriminate |]. split; reflexivity.
Qed.

(* ================================================================== *)
(** ** The sort parser on its two input shapes *)

(** C8.  A string is parsed as the array of its comma-separated parts.  The
    comma-separated string [id:asc,price:desc] and the array
    [["id:asc", "price:desc"]] parse to the same list,
    [[{id: "asc"}, {price: "desc"}]]; an element with no order, as in
    [["id"]], gets the ascending order. *)
Theorem convertSortQueryParams_string_array (P : platform) :
  (forall s, convertSortQueryParams P (VStr s)
             = convertSortQueryParams P (VArr (map VStr (Str.split "," s))))
  /\ convertSortQueryParams P (VStr "id:asc,price:desc")
     = convertSortQueryParams P (VArr [VStr "id:asc"; VStr "price:desc"])
  /\ convertSortQueryParams P (VArr [VStr "id:asc"; VStr "price:desc"])
     = Ok [VObj [("id", VStr "asc")]; VObj [("price", VStr "desc")]]
  /\ convertSortQueryParams P (VArr [VStr "id"]) = Ok [VObj [("id", VStr "asc")]].
Proof.
  repeat split.
Qed.

(* ================================================================== *)
(** ** The start and limit parsers *)

Lemma nonneg_integer_test (n : number) :
  nonneg_integer n <-> negb (Num.isInteger n) || Num.ltb0 n = false.
Proof.
  unfold nonneg_integer. destruct n as [| s | | z | m e]; simpl.
  - split; [intros [z [H _]]; discriminate | discriminate].
  - split; [intros [z [H _]]; discriminate | discriminate].
  - split; [reflexivity | intros _; exists 0%Z; split; [reflexivity | lia]].
  - split.
    + intros [z' [H Hz]]. injection H as ->. apply Z.ltb_ge. exact Hz.
    + intros H. apply Z.ltb_ge in H. exists z. split; [reflexivity | exact H].
  - split; [intros [z [H _]]; discriminate | discriminate].
Qed.

Lemma limit_test (n : number) :
  nonneg_integer n \/ minus_one n <->
  negb (Num.isInteger n) || (negb (Num.eqb n (Int (-1))) && Num.ltb0 n) = false.
Proof.
  unfold nonneg_integer, minus_one. destruct n as [| s | | z | m e]; simpl.
  - split; [intros [[z [H _]] | H]; discriminate | discriminate].
  - split; [intros [[z [H _]] | H]; discriminate | discriminate].
  - split; [reflexivity | intros _; left; exists 0%Z; split; [reflexivity | lia]].
  - split.
    + intros [[z' [H Hz]] | H].
      * injection H as ->. apply andb_false_iff. right. apply Z.ltb_ge. exact Hz.
      * injection H as ->. reflexivity.
    + intros H. apply andb_false_iff in H. destruct H as [H | H].
      * right. apply negb_false_iff in H. apply Z.eqb_eq in H. now subst.
      * left. apply Z.ltb_ge in H. exists z. split; [reflexivity | exact H].
  - split; [intros [[z [H _]] | H]; discriminate | discriminate].
Qed.

(** C7.  The start parser returns the number its input coerces to when that
    number is a non-negative integer, and throws an [Error] otherwise; the
    limit parser does the same and accepts [-1] as well.  So start parses
    ["5"] to 5 and rejects ["-1"] and ["abc"]; limit parses ["-1"] to -1 and
    rejects ["-2"]. *)
Theorem convertStart_convertLimit (P : platform) :
  (forall (v : value) (n : number),
      toNumber P v = Ok n ->
      (nonneg_integer n -> convertStartQueryParams P v = Ok n)
      /\ (~ nonneg_integer n ->
          convertStartQueryParams P v = Throw (Error (StartExpectedPositive n)))
      /\ (nonneg_integer n \/ minus_one n -> convertLimitQueryParams P v = Ok n)
      /\ (~ (nonneg_integer n \/ minus_one n) ->
          convertLimitQueryParams P v = Throw (Error (LimitExpectedPositive n))))
  /\ convertStartQueryParams P (VStr "5") = Ok (Int 5)
  /\ invalid_input (convertStartQueryParams P (VStr "-1"))
  /\ invalid_input (convertStartQueryParams P (VStr "abc"))
  /\ convertLimitQueryParams P (VStr "-1") = Ok (Int (-1))
  /\ invalid_input (convertLimitQueryParams P (VStr "-2")).
Proof.
  split.
  - intros v n Hn. unfold convertStartQueryParams, convertLimitQueryParams.
    rewrite Hn. simpl. repeat split.
    + intros H. apply nonneg_integer_test in H. now rewrite H.
    + intros H. rewrite nonneg_integer_test in H.
      destruct (negb (Num.isInteger n) || Num.ltb0 n); [reflexivity | now elim H].
    + intros H. apply limit_test in H. now rewrite H.
    + intros H. rewrite limit_test in H.
      destruct (negb (Num.isInteger n)
                || (negb (Num.eqb n (Int (-1))) && Num.ltb0 n));
        [reflexivity | now elim H].
  - repeat split; try (eexists; reflexivity).
Qed.

Lemma convertStart_convertLimit_witness :
  toNumber sample_platform (VStr "5") = Ok (Int 5)
  /\ nonneg_integer (Int 5)
  /\ convertStartQueryParams sample_platform (VStr "5") = Ok (Int 5)
  /\ convertLimitQueryParams sample_platform (VStr "5") = Ok (Int 5).
Proof.
  assert (H5 : nonneg_integer (Int 5)) by (exists 5%Z; split; [reflexivity | lia]).
  split; [reflexivity |]. split; [exact H5 |].
  destruct (proj1 (convertStart_convertLimit sample_platform) (VStr "5") (Int 5) eq_refl)
    as [Hs [_ [Hl _]]].
  split; [apply Hs; exact H5 | apply Hl; left; exact H5].
Defined.

(* ================================================================== *)
(** ** The dispatcher, step by step *)

Lemma own_nonempty (params : value) :
  Obj.own params <> [] ->
  (List.length (Obj.keys (Obj.own params)) =? 0)%nat = false.
Proof.
  intros H. unfold Obj.keys. destruct (Obj.own params); [now elim H | reflexivity].
Qed.

Lemma lodash_has_nonempty (k : string) (params : value) :
  Obj.lodash_has k params = true -> nonempty_params params.
Proof.
  destruct params as [| | b | n | s | l | o]; simpl; try discriminate.
  intros H. repeat split; try discriminate.
  unfold Obj.has in H. destruct o; [discriminate H | discriminate].
Qed.

(** A successful call on non-empty params went through every step. *)
Lemma convertRestQueryParams_steps (P : platform) (params defaults : value) (r : value) :
  nonempty_params params ->
  convertRestQueryParams P params defaults = Ok r ->
  exists fp1 fp2 fp3 fp4 extraClauses whereClauses,
    sortStep P params
      (seededParams (match defaults with VUndefined => VObj [] | _ => defaults end))
      = Ok fp1
    /\ startStep P params fp1 = Ok fp2
    /\ limitStep P params fp2 = Ok fp3
    /\ publicationStateStep P params fp3 = Ok fp4
    /\ extraRootStep params = Ok extraClauses
    /\ whereStep params extraClauses = Ok whereClauses
    /\ r = VObj (Obj.set "where" (VArr whereClauses) fp4).
Proof.
  intros [Hty [Hnull Hown]] H.
  unfold convertRestQueryParams in H.
  assert (Hp : match params with VUndefined => VObj [] | _ => params end = params)
    by (destruct params; try reflexivity; discriminate Hty).
  rewrite Hp in H. rewrite Hty in H.
  replace (match params with VNull => true | _ => false end) with false in H
    by (destruct params; try reflexivity; now elim Hnull).
  simpl in H. rewrite (own_nonempty _ Hown) in H.
  apply bind_Ok in H. destruct H as [fp1 [H1 H]].
  apply bind_Ok in H. destruct H as [fp2 [H2 H]].
  apply bind_Ok in H. destruct H as [fp3 [H3 H]].
  apply bind_Ok in H. destruct H as [fp4 [H4 H]].
  apply bind_Ok in H. destruct H as [ex [H5 H]].
  apply bind_Ok in H. destruct H as [wc [H6 H]].
  injection H as <-.
  exists fp1, fp2, fp3, fp4, ex, wc. repeat split; assumption.
Qed.

(* ================================================================== *)
(** ** The operators of the parsed clauses *)

Lemma mapM_Ok_Forall {A B : Type} (f : A -> result B) (R : B -> Prop)
  (l : list A) (ys : list B) :
  Forall (fun x => forall y, f x = Ok y -> R y) l ->
  mapM f l = Ok ys -> Forall R ys.
Proof.
  intros HF. revert ys. induction HF as [| x l Hx HF IH]; simpl; intros ys H.
  - inv_Ok H. constructor.
  - inv_bind H. inv_bind H. inv_Ok H. constructor; auto.
Qed.

Lemma eq_in_vocabulary : In "eq" VALID_REST_OPERATORS.
Proof. simpl. tauto. Qed.

(** The clause pushed for one key is a clause tree, as soon as the parser the
    boolean groups go back to returns clause trees on the value and on its
    elements. *)
Lemma convertWhereClause_tree (rec : value -> result (list value))
  (whereClause : string) (val parsed : value) :
  (forall g, rec val = Ok g -> Forall clause_tree g) ->
  (forall elems, val = VArr elems ->
                 Forall (fun x => forall g, rec x = Ok g -> Forall clause_tree g) elems) ->
  convertWhereClause rec whereClause val = Ok parsed ->
  clause_tree (pushedClause parsed).
Proof.
  intros Hval Helems H. unfold convertWhereClause in H.
  destruct (Str.lastIndexOf "_" whereClause) as [i |].
  - destruct (Str.includes (Str.slice (S i) whereClause) BOOLEAN_OPERATORS
              && (Str.substring0 i whereClause =? EmptyString)) eqn:Hb.
    + apply andb_true_iff in Hb. destruct Hb as [Hb _]. apply includes_In in Hb.
      inv_bind H. inv_Ok H.
      change (clause_tree (booleanClause (Str.slice (S i) whereClause) a)).
      apply tree_boolean; [exact Hb |].
      destruct val as [| | b | n | s | elems | props];
        try (inv_bind Ha; inv_Ok Ha; constructor; [eapply Hval; eassumption | constructor]).
      eapply mapM_Ok_Forall; [apply Helems; reflexivity | exact Ha].
    + destruct (Str.includes (Str.slice (S i) whereClause) VALID_REST_OPERATORS) eqn:Hv;
        simpl in H; inv_Ok H.
      * apply includes_In in Hv. apply (tree_leaf _ _ _ Hv).
      * apply (tree_leaf whereClause "eq" val eq_in_vocabulary).
  - inv_Ok H. apply (tree_leaf whereClause "eq" val eq_in_vocabulary).
Qed.

Lemma convertWhereParams_tree_elems (v : value) :
  (forall clauses, convertWhereParams v = Ok clauses -> Forall clause_tree clauses)
  /\ (forall elems, v = VArr elems ->
        Forall (fun x => forall g, convertWhereParams x = Ok g -> Forall clause_tree g)
               elems).
Proof.
  induction v as [| | b | n | s | elems IH | props IH] using value_nested_ind;
    (split; [| try discriminate]).
  - discriminate.
  - discriminate.
  - simpl. intros ? H. inv_Ok H. constructor.
  - simpl. intros ? H. inv_Ok H. constructor.
  - intros clauses H. simpl in H.
    eapply mapEntriesM_Ok_Forall; [| exact H].
    intros k v y _ Hy. inv_bind Hy. inv_Ok Hy.
    eapply convertWhereClause_tree; [| | exact Ha].
    + intros g Hg. inv_Ok Hg. constructor.
    + intros l _. apply Forall_forall. intros x _ g Hg. inv_Ok Hg. constructor.
  - intros clauses H. simpl in H.
    eapply concatMapM_Ok_Forall; [| exact H].
    eapply Forall_impl; [| exact IH]. intros x [Hx _]. exact Hx.
  - intros l Hl. injection Hl as <-.
    eapply Forall_impl; [| exact IH]. intros x [Hx _]. exact Hx.
  - intros clauses H. simpl in H.
    eapply mapEntriesM_Ok_Forall; [| exact H].
    intros k v y Hin Hy. inv_bind Hy. inv_Ok Hy.
    rewrite Forall_forall in IH. specialize (IH _ Hin). simpl in IH.
    destruct IH as [IHv IHe].
    eapply convertWhereClause_tree; [exact IHv | exact IHe | exact Ha].
Qed.

(** Every clause the where parser returns is a clause tree. *)
Lemma convertWhereParams_tree (v : value) (clauses : list value) :
  convertWhereParams v = Ok clauses -> Forall clause_tree clauses.
Proof. apply convertWhereParams_tree_elems. Qed.

Lemma Forall_map_VArr (R : value -> Prop) (groups : list (list value)) (g : value) :
  Forall (Forall R) groups -> In g (map VArr groups) ->
  exists clauses, g = VArr clauses /\ Forall R clauses.
Proof.
  intros HF Hin. apply in_map_iff in Hin. destruct Hin as [clauses [<- Hin]].
  exists clauses. split; [reflexivity |].
  rewrite Forall_forall in HF. now apply HF.
Qed.

(** In a list of clause trees every clause, at any depth, carries an operator
    of the vocabulary, or [or]/[and] with a null field. *)
Lemma clause_in_tree_operator (c w : value) :
  clause_in c w ->
  forall clauses, w = VArr clauses -> Forall clause_tree clauses ->
  exists operator,
    Obj.prop "operator" c = VStr operator
    /\ (In operator VALID_REST_OPERATORS
        \/ (In operator BOOLEAN_OPERATORS /\ Obj.prop "field" c = VNull)).
Proof.
  induction 1 as [clauses0 Hin | clauses0 b groups g Hb Hfield Hvalue Hg Hc IH];
    intros clauses Hw HF; injection Hw as <-; rewrite Forall_forall in HF.
  - destruct (HF _ Hin) as [field operator val Hop | operator gs Hop _].
    + exists operator. split; [reflexivity | now left].
    + exists operator. split; [reflexivity | right; split; [exact Hop | reflexivity]].
  - destruct (HF _ Hb) as [field operator val Hop | operator gs Hop Hgs].
    + discriminate Hfield.
    + simpl in Hvalue. injection Hvalue as <-.
      destruct (Forall_map_VArr _ _ _ Hgs Hg) as [cs [-> Hcs]].
      eapply IH; [reflexivity | exact Hcs].
Qed.

Lemma whereStep_tree (params : value) (extraClauses whereClauses : list value) :
  Forall clause_tree extraClauses ->
  whereStep params extraClauses = Ok whereClauses ->
  Forall clause_tree whereClauses.
Proof.
  intros He H. unfold whereStep in H.
  destruct (Obj.lodash_has "_where" params).
  - inv_bind H. inv_Ok H. apply Forall_app. split; [exact He |].
    eapply convertWhereParams_tree; eassumption.
  - inv_Ok H. exact He.
Qed.

Lemma extraRootStep_tree (params : value) (extraClauses : list value) :
  extraRootStep params = Ok extraClauses -> Forall clause_tree extraClauses.
Proof.
  unfold extraRootStep. intros H.
  destruct (0 <? List.length (Obj.keys (extraRootParams params)))%nat.
  - eapply convertWhereParams_tree; eassumption.
  - inv_Ok H. constructor.
Qed.

Lemma prop_set_same (k : string) (v : value) (o : Obj.t) :
  k <> "__proto__" -> Obj.prop k (VObj (Obj.set k v o)) = v.
Proof.
  intros Hk. simpl. rewrite get_set.
  apply String.eqb_neq in Hk. rewrite Hk, String.eqb_refl. reflexivity.
Qed.

(** C2 (as amended).  In the descriptor returned for raw params that are not
    empty, every clause of the where list, at any depth, has as operator a
    member of the operator vocabulary (which contains [eq]), or, when it is a
    boolean composition with a null field, [or] or [and]. *)
Theorem where_operators (P : platform) (params defaults r c : value) :
  nonempty_params params ->
  convertRestQueryParams P params defaults = Ok r ->
  clause_in c (Obj.prop "where" r) ->
  exists operator,
    Obj.prop "operator" c = VStr operator
    /\ (In operator VALID_REST_OPERATORS
        \/ (In operator BOOLEAN_OPERATORS /\ Obj.prop "field" c = VNull)).
Proof.
  intros Hne H Hc.
  destruct (convertRestQueryParams_steps _ _ _ _ Hne H)
    as [fp1 [fp2 [fp3 [fp4 [ex [wc [_ [_ [_ [_ [Hex [Hwc ->]]]]]]]]]]]].
  rewrite prop_set_same in Hc by discriminate.
  eapply clause_in_tree_operator; [exact Hc | reflexivity |].
  eapply whereStep_tree; [| exact Hwc].
  eapply extraRootStep_tree; exact Hex.
Qed.

Lemma where_operators_witness :
  let params := VObj [("_where", VObj [("_or", VArr [VObj [("a", num 1)]])])] in
  let r := VObj [("start", num 0); ("limit", num 100);
                 ("where", VArr [booleanClause "or" [[leafClause "a" "eq" (num 1)]]])] in
  nonempty_params params
  /\ convertRestQueryParams sample_platform params (VObj []) = Ok r
  /\ clause_in (leafClause "a" "eq" (num 1)) (Obj.prop "where" r)
  /\ exists operator,
       Obj.prop "operator" (leafClause "a" "eq" (num 1)) = VStr operator
       /\ (In operator VALID_REST_OPERATORS
           \/ (In operator BOOLEAN_OPERATORS
               /\ Obj.prop "field" (leafClause "a" "eq" (num 1)) = VNull)).
Proof.
  intros params r.
  assert (Hne : nonempty_params params) by (repeat split; discriminate).
  assert (Hin : clause_in (leafClause "a" "eq" (num 1)) (Obj.prop "where" r)).
  { eapply clause_nested with (g := VArr [leafClause "a" "eq" (num 1)]).
    - left. reflexivity.
    - reflexivity.
    - reflexivity.
    - left. reflexivity.
    - apply clause_here. left. reflexivity. }
  split; [exact Hne |]. split; [reflexivity |]. split; [exact Hin |].
  exact (where_operators sample_platform params (VObj []) r _ Hne eq_refl Hin).
Defined.

(** C2 as the specification states it fails twice.  A boolean composition
    carries the operator [or], which is neither in the vocabulary nor [eq];
    and for empty raw params the where list is whatever the defaults carry. *)
Lemma where_operator_outside_vocabulary :
  (exists r c,
      convertRestQueryParams sample_platform
        (VObj [("_where", VObj [("_or", VArr [VObj [("a", num 1)]])])]) (VObj []) = Ok r
      /\ clause_in c (Obj.prop "where" r)
      /\ ~ exists operator,
            Obj.prop "operator" c = VStr operator
            /\ (In operator VALID_REST_OPERATORS \/ operator = "eq"))
  /\ (exists r c,
        convertRestQueryParams sample_platform (VObj [])
          (VObj [("where", VArr [leafClause "title" "like" (VStr "x")])]) = Ok r
        /\ clause_in c (Obj.prop "where" r)
        /\ ~ exists operator,
              Obj.prop "operator" c = VStr operator
              /\ (In operator VALID_REST_OPERATORS \/ operator = "eq")).
Proof.
  split.
  - exists (VObj [("start", num 0); ("limit", num 100);
                  ("where", VArr [booleanClause "or" [[leafClause "a" "eq" (num 1)]]])]).
    exists (booleanClause "or" [[leafClause "a" "eq" (num 1)]]).
    split; [reflexivity |]. split; [apply clause_here; left; reflexivity |].
    intros [operator [Hop Hin]]. simpl in Hop. injection Hop as <-.
    destruct Hin as [Hin | Heq]; [| discriminate Heq].
    simpl in Hin. repeat (destruct Hin as [Hin | Hin]; [discriminate Hin |]). exact Hin.
  - exists (VObj [("start", num 0); ("limit", num 100);
                  ("where", VArr [leafClause "title" "like" (VStr "x")])]).
    exists (leafClause "title" "like" (VStr "x")).
    split; [reflexivity |]. split; [apply clause_here; left; reflexivity |].
    intros [operator [Hop Hin]]. simpl in Hop. injection Hop as <-.
    destruct Hin as [Hin | Heq]; [| discriminate Heq].
    simpl in Hin. repeat (destruct Hin as [Hin | Hin]; [discriminate Hin |]). exact Hin.
Qed.

(* ================================================================== *)
(** ** The order of the where list *)

Lemma convertWhereParams_empty_object : convertWhereParams (VObj []) = Ok [].
Proof. reflexivity. Qed.

Lemma extraRootStep_parse (params : value) :
  extraRootStep params = convertWhereParams (VObj (extraRootParams params)).
Proof.
  unfold extraRootStep, Obj.keys.
  destruct (extraRootParams params); reflexivity.
Qed.

(** The clauses of an object come in the order of its keys, one per key. *)
Lemma convertWhereParams_object_order (props : Obj.t) (clauses : list value) :
  convertWhereParams (VObj props) = Ok clauses ->
  Forall2 (fun p c => exists parsed,
               convertWhereClause convertWhereParams (fst p) (snd p) = Ok parsed
               /\ c = pushedClause parsed)
          props clauses.
Proof.
  simpl. revert clauses. induction props as [| [k v] props IH]; simpl; intros clauses H.
  - inv_Ok H. constructor.
  - inv_bind H. inv_bind H. inv_Ok H. inv_bind Ha. inv_Ok Ha.
    constructor; [| now apply IH].
    eexists. split; [eassumption | reflexivity].
Qed.

(** C5.  When the raw params carry a [_where] entry, the where list of the
    descriptor is the clauses parsed from the extra-root params, one per key in
    the order of the keys, followed by the clauses parsed from [_where], in the
    order the parser returned them: every extra-root clause stands at an index
    below that of every [_where] clause. *)
Theorem where_extra_root_first (P : platform) (params defaults r : value) :
  Obj.lodash_has "_where" params = true ->
  convertRestQueryParams P params defaults = Ok r ->
  exists extraClauses explicitClauses,
    convertWhereParams (VObj (extraRootParams params)) = Ok extraClauses
    /\ convertWhereParams (Obj.prop "_where" params) = Ok explicitClauses
    /\ Obj.prop "where" r = VArr (extraClauses ++ explicitClauses)
    /\ Forall2 (fun p c => exists parsed,
                    convertWhereClause convertWhereParams (fst p) (snd p) = Ok parsed
                    /\ c = pushedClause parsed)
               (extraRootParams params) extraClauses
    /\ (forall i c, nth_error extraClauses i = Some c ->
                    nth_error (extraClauses ++ explicitClauses) i = Some c)
    /\ (forall j c, nth_error explicitClauses j = Some c ->
                    nth_error (extraClauses ++ explicitClauses)
                              (List.length extraClauses + j) = Some c).
Proof.
  intros Hw H.
  destruct (convertRestQueryParams_steps _ _ _ _ (lodash_has_nonempty _ _ Hw) H)
    as [fp1 [fp2 [fp3 [fp4 [ex [wc [_ [_ [_ [_ [Hex [Hwc ->]]]]]]]]]]]].
  rewrite extraRootStep_parse in Hex.
  unfold whereStep in Hwc. rewrite Hw in Hwc.
  apply bind_Ok in Hwc. destruct Hwc as [explicit [Hexp Hwc]]. injection Hwc as <-.
  exists ex, explicit. repeat split; try assumption.
  - apply prop_set_same. discriminate.
  - now apply convertWhereParams_object_order.
  - intros i c Hi. rewrite nth_error_app1; [exact Hi |].
    apply nth_error_Some. congruence.
  - intros j c Hj. rewrite nth_error_app2 by lia.
    replace (List.length ex + j - List.length ex)%nat with j by lia. exact Hj.
Qed.

Lemma where_extra_root_first_witness :
  let params := VObj [("price_gte", num 10); ("_where", VObj [("title", VStr "x")])] in
  Obj.lodash_has "_where" params = true
  /\ exists r extraClauses explicitClauses,
       convertRestQueryParams sample_platform params (VObj []) = Ok r
       /\ extraClauses = [leafClause "price" "gte" (num 10)]
       /\ explicitClauses = [leafClause "title" "eq" (VStr "x")]
       /\ Obj.prop "where" r = VArr (extraClauses ++ explicitClauses).
Proof.
  intros params. split; [reflexivity |].
  destruct (where_extra_root_first sample_platform params (VObj []) _ eq_refl eq_refl)
    as [ex [explicit [Hex [Hexp [Hw _]]]]].
  injection Hex as <-. injection Hexp as <-.
  eexists. exists [leafClause "price" "gte" (num 10)], [leafClause "title" "eq" (VStr "x")].
  split; [reflexivity |]. split; [reflexivity |]. split; [reflexivity |]. exact Hw.
Defined.

(* ================================================================== *)
(** ** The pagination bounds of the descriptor *)












Lemma convertRestQueryParams_cases (P : platform) (params defaults r : value) :
  convertRestQueryParams P params defaults = Ok r ->
  r = VObj (seededParams defaults) \/ nonempty_params params.
Proof.
  assert (Hd : seededParams (match defaults with VUndefined => VObj [] | _ => defaults end)
               = seededParams defaults) by (destruct defaults; reflexivity).
  unfold convertRestQueryParams. fold (seededParams
    (match defaults with VUndefined => VObj [] | _ => defaults end)). rewrite Hd.
  destruct params as [| | b | n | s | l | o]; simpl; try discriminate.
  - intros H. inv_Ok H. now left.
  - destruct l; simpl.
    + intros H. inv_Ok H. now left.
    + intros _. right. repeat split; discriminate.
  - destruct o; simpl.
    + intros H. inv_Ok H. now left.
    + intros _. right. repeat split; discriminate.
Qed.







(* ================================================================== *)
(** ** Boolean composition among the root params *)

Lemma get_None_notin (k : string) (o : Obj.t) :
  Obj.get k o = None <-> ~ In k (Obj.keys o).
Proof.
  induction o as [| [k' v'] o IH]; simpl.
  - tauto.
  - destruct (k' =? k) eqn:E.
    + apply String.eqb_eq in E. split; [discriminate | intros H; elim H; now left].
    + apply String.eqb_neq in E. rewrite IH. tauto.
Qed.

Lemma strippedKey_target (key target : string) :
  strippedKey key = target -> key = target \/ key = String "_" target.
Proof.
  unfold strippedKey.
  destruct (Str.startsWith "_" key && negb (Str.includes key QUERY_OPERATORS)) eqn:E.
  - apply andb_true_iff in E. destruct E as [E _].
    destruct key as [| a key]; [discriminate E |].
    simpl in E. apply Ascii.eqb_eq in E. subst a. simpl. intros ->. now right.
  - intros ->. now left.
Qed.

Lemma convertExtraRootParams_fold (params acc : Obj.t) :
  fold_left
    (fun acc p =>
       let '(key, val) := p in
       if Str.startsWith "_" key && negb (Str.includes key QUERY_OPERATORS)
       then Obj.set (Str.slice 1 key) val acc
       else Obj.set key val acc)
    params acc
  = fold_left (fun acc p => Obj.set (strippedKey (fst p)) (snd p) acc) params acc.
Proof.
  revert acc. induction params as [| [k v] params IH]; cbn [fold_left]; intros acc.
  - reflexivity.
  - rewrite IH. unfold strippedKey. cbn [fst snd].
    now destruct (Str.startsWith "_" k && negb (Str.includes k QUERY_OPERATORS)).
Qed.

(** A query operator that is a key of the params, and that no other key is
    stripped to, is a key of the extra-root params, with the same value. *)
Lemma get_stripped_fold (target : string) (params acc : Obj.t) :
  In target QUERY_OPERATORS ->
  NoDup (Obj.keys params) ->
  ~ In (String "_" target) (Obj.keys params) ->
  Obj.get target
    (fold_left (fun acc p => Obj.set (strippedKey (fst p)) (snd p) acc) params acc)
  = match Obj.get target params with
    | Some v => Some v
    | None => Obj.get target acc
    end.
Proof.
  intros Hq. revert acc.
  induction params as [| [k v] params IH]; simpl; intros acc Hnd Hno.
  - reflexivity.
  - inversion Hnd as [| ? ? Hk Hnd']; subst.
    rewrite IH; [| exact Hnd' | tauto].
    destruct (k =? target) eqn:E.
    + apply String.eqb_eq in E. subst k.
      apply get_None_notin in Hk. rewrite Hk.
      assert (Hst : strippedKey target = target).
      { unfold strippedKey. apply includes_In in Hq. rewrite Hq.
        now rewrite andb_false_r. }
      rewrite Hst, get_set, String.eqb_refl.
      simpl in Hq. now destruct Hq as [<- | [<- | [<- | []]]].
    + destruct (Obj.get target params); [reflexivity |].
      rewrite get_set.
      destruct (strippedKey k =? "__proto__"); [reflexivity |].
      destruct (strippedKey k =? target) eqn:E'; [| reflexivity].
      apply String.eqb_eq in E'. apply strippedKey_target in E'.
      destruct E' as [-> | ->].
      * rewrite String.eqb_refl in E. discriminate E.
      * elim Hno. now left.
Qed.

Lemma keys_omit_incl (ks : list string) (o : Obj.t) (k : string) :
  In k (Obj.keys (Obj.omit ks (VObj o))) -> In k (Obj.keys o).
Proof.
  unfold Obj.omit, Obj.keys. simpl. rewrite !in_map_iff.
  intros [p [Hp Hin]]. apply filter_In in Hin. exists p. tauto.
Qed.

Lemma NoDup_keys_omit (ks : list string) (o : Obj.t) :
  NoDup (Obj.keys o) -> NoDup (Obj.keys (Obj.omit ks (VObj o))).
Proof.
  unfold Obj.omit. simpl. induction o as [| [k v] o IH]; simpl; intros Hnd.
  - constructor.
  - inversion Hnd as [| ? ? Hk Hnd']; subst.
    destruct (negb (Str.includes k ks)); simpl.
    + constructor; [| now apply IH].
      intros Hin. apply Hk. now apply (keys_omit_incl ks).
    + now apply IH.
Qed.

Lemma get_omit (ks : list string) (o : Obj.t) (k : string) :
  Str.includes k ks = false ->
  Obj.get k (Obj.omit ks (VObj o)) = Obj.get k o.
Proof.
  intros Hk. unfold Obj.omit. simpl. induction o as [| [k' v] o IH]; simpl.
  - reflexivity.
  - destruct (k' =? k) eqn:E.
    + apply String.eqb_eq in E. subst k'. rewrite Hk. simpl.
      now rewrite String.eqb_refl.
    + destruct (negb (Str.includes k' ks)); simpl; [rewrite E |]; exact IH.
Qed.

(** The extra-root stripping leaves [_or] and [_and] in place. *)
Lemma extraRootParams_keeps_operator (o : Obj.t) (operator : string) (v : value) :
  In operator BOOLEAN_OPERATORS ->
  NoDup (Obj.keys o) ->
  Obj.get (String "_" operator) o = Some v ->
  Obj.get (String "_" (String "_" operator)) o = None ->
  Obj.get (String "_" operator) (extraRootParams (VObj o)) = Some v.
Proof.
  intros Hop Hnd Hget Hno.
  unfold extraRootParams, convertExtraRootParams.
  rewrite convertExtraRootParams_fold, get_stripped_fold.
  - rewrite get_omit, Hget; [reflexivity |].
    simpl in Hop. now destruct Hop as [<- | [<- | []]].
  - simpl in Hop. destruct Hop as [<- | [<- | []]]; simpl; tauto.
  - now apply NoDup_keys_omit.
  - intros Hin. apply keys_omit_incl in Hin. now apply get_None_notin in Hno.
Qed.

(** A key [__or] that comes after [_or]: stripping turns it into [_or] too,
    its value replaces the value of [_or], and the where list holds the groups
    of [__or]. *)
Lemma root_or_replaced_by_stripped_key :
  let o := [("_or", VArr [VObj [("a", num 1)]]); ("__or", VArr [VObj [("b", num 2)]])] in
  NoDup (Obj.keys o)
  /\ mapM convertWhereParams [VObj [("a", num 1)]] = Ok [[leafClause "a" "eq" (num 1)]]
  /\ exists r,
       convertRestQueryParams sample_platform (VObj o) (VObj []) = Ok r
       /\ Obj.prop "where" r = VArr [booleanClause "or" [[leafClause "b" "eq" (num 2)]]]
       /\ ~ In (booleanClause "or" [[leafClause "a" "eq" (num 1)]])
               [booleanClause "or" [[leafClause "b" "eq" (num 2)]]].
Proof.
  intros o. split.
  - repeat constructor; simpl; intuition discriminate.
  - split; [reflexivity |]. eexists. split; [reflexivity |]. split; [reflexivity |].
    simpl. intros [H | []]. discriminate H.
Qed.

(* ================================================================== *)
(** ** The failures of the sort parser *)

Lemma length_zero_empty (s : string) :
  (String.length s =? 0)%nat = true <-> s = EmptyString.
Proof.
  destruct s; simpl; split; congruence.
Qed.

(** One clause: accepted when valid, refused with an [Error] otherwise. *)
Lemma convertSortClause_string (P : platform) (clause : string) :
  (valid_sort_clause clause ->
   convertSortClause P (VStr clause)
   = Ok (lodash_set P (sortField clause) (VStr (sortOrder clause))))
  /\ (~ valid_sort_clause clause -> invalid_input (convertSortClause P (VStr clause))).
Proof.
  unfold valid_sort_clause, sortField, sortOrder, convertSortClause,
    Str.toLocaleLowerCase.
  destruct (String.length (hd EmptyString (Str.split ":" clause)) =? 0)%nat eqn:Ef.
  - apply length_zero_empty in Ef. split.
    + intros [Hf _]. now elim Hf.
    + intros _. eexists. reflexivity.
  - destruct (Str.includes
                (Str.toLowerCase (nth 1 (Str.split ":" clause) "asc")) ["asc"; "desc"])
      eqn:Eo; cbn [negb].
    + split; [reflexivity |]. intros Hn. elim Hn. split.
      * intros He. apply length_zero_empty in He. congruence.
      * now apply includes_In.
    + split.
      * intros [_ Ho]. apply includes_In in Ho. congruence.
      * intros _. eexists. reflexivity.
Qed.

Lemma find_non_string_none (clauses : list string) :
  find (fun clause => negb (isString clause)) (map VStr clauses) = None.
Proof.
  induction clauses as [| s clauses IH]; simpl; [reflexivity | exact IH].
Qed.

(** On an array of strings the parser succeeds exactly when every clause is
    valid, and fails with an [Error] otherwise. *)
Lemma convertSortQueryParams_strings (P : platform) (clauses : list string) :
  (Forall valid_sort_clause clauses ->
   convertSortQueryParams P (VArr (map VStr clauses))
   = Ok (map (fun clause => lodash_set P (sortField clause) (VStr (sortOrder clause)))
             clauses))
  /\ (~ Forall valid_sort_clause clauses ->
      invalid_input (convertSortQueryParams P (VArr (map VStr clauses)))).
Proof.
  unfold convertSortQueryParams. rewrite find_non_string_none. cbn [truthy].
  induction clauses as [| s clauses [IHok IHerr]]; cbn [map mapM].
  - split; [reflexivity |]. intros H. elim H. constructor.
  - destruct (convertSortClause_string P s) as [Hok Herr]. split.
    + intros H. inversion H as [| ? ? Hs Hrest]; subst.
      rewrite (Hok Hs). cbn [bind]. rewrite (IHok Hrest). reflexivity.
    + intros H.
      destruct (convertSortClause P (VStr s)) as [y | e] eqn:E.
      * assert (Hs : valid_sort_clause s).
        { destruct (String.length (sortField s) =? 0)%nat eqn:Ef.
          - apply length_zero_empty in Ef.
            unfold convertSortClause in E. fold (sortField s) in E.
            rewrite Ef in E. discriminate E.
          - unfold convertSortClause, Str.toLocaleLowerCase in E.
            fold (sortField s) in E. rewrite Ef in E. fold (sortOrder s) in E.
            destruct (Str.includes (sortOrder s) ["asc"; "desc"]) eqn:Eo;
              [| discriminate E].
            split; [| now apply includes_In].
            intros He. apply length_zero_empty in He. congruence. }
        cbn [bind].
        destruct (IHerr (fun Hrest => H (Forall_cons s Hs Hrest))) as [msg Hmsg].
        exists msg. now rewrite Hmsg.
      * assert (Hn : ~ valid_sort_clause s).
        { intros Hs. discriminate (Hok Hs). }
        destruct (Herr Hn) as [msg Hmsg].
        injection Hmsg as ->. exists msg. reflexivity.
Qed.

(** An input that is neither a string nor an array is refused with its
    type. *)
Lemma convertSortQueryParams_not_array (P : platform) (sortQuery : value) :
  (forall s, sortQuery <> VStr s) -> (forall l, sortQuery <> VArr l) ->
  convertSortQueryParams P sortQuery
  = Throw (Error (ExpectedArrayOfString (typeof sortQuery))).
Proof.
  intros Hs Hl. destruct sortQuery; try reflexivity.
  - now elim (Hs s).
  - now elim (Hl elems).
Qed.

(** A truthy first non-string element is refused with its type. *)
Lemma convertSortQueryParams_truthy_non_string (P : platform)
  (clauses : list value) (x : value) :
  find (fun clause => negb (isString clause)) clauses = Some x ->
  truthy x = true ->
  convertSortQueryParams P (VArr clauses) = Throw (Error (FoundNonString (typeof x))).
Proof.
  intros Hf Ht. unfold convertSortQueryParams. now rewrite Hf, Ht.
Qed.

Lemma find_non_string_app (clauses : list string) (x : value) (rest : list value) :
  isString x = false ->
  find (fun clause => negb (isString clause)) (map VStr clauses ++ x :: rest) = Some x.
Proof.
  intros Hx. induction clauses as [| s clauses IH]; simpl.
  - now rewrite Hx.
  - exact IH.
Qed.

(** A falsy first non-string element, after valid clauses, is not refused for
    its type: the parser goes on and the call of [split] on it fails. *)
Lemma convertSortQueryParams_falsy_non_string (P : platform)
  (clauses : list string) (x : value) (rest : list value) :
  Forall valid_sort_clause clauses ->
  isString x = false ->
  truthy x = false ->
  convertSortQueryParams P (VArr (map VStr clauses ++ x :: rest)) = Throw TypeError.
Proof.
  intros Hv Hx Ht. unfold convertSortQueryParams.
  rewrite (find_non_string_app _ _ _ Hx), Ht.
  induction Hv as [| s clauses Hs Hv IH]; cbn [map app mapM].
  - destruct x; try discriminate Hx; reflexivity.
  - rewrite (proj1 (convertSortClause_string P s) Hs). cbn [bind]. now rewrite IH.
Qed.

(** C6, at the input where the code departs from it.  An array whose
    non-string element is falsy ([0], [null]) passes the test on the element
    found, and the parser then calls [split] on it: the call ends in a
    [TypeError], not in the [Error] naming the element's type, which a truthy
    non-string element gets.  The other failures are [Error]s: an input that is
    neither a string nor an array, an empty field, an order outside
    asc/desc. *)
Theorem convertSortQueryParams_falsy_element (P : platform) :
  convertSortQueryParams P (VArr [num 0]) = Throw TypeError
  /\ convertSortQueryParams P (VArr [VNull]) = Throw TypeError
  /\ ~ invalid_input (convertSortQueryParams P (VArr [num 0]))
  /\ convertSortQueryParams P (VArr [num 7]) = Throw (Error (FoundNonString "number"))
  /\ convertSortQueryParams P (num 123) = Throw (Error (ExpectedArrayOfString "number"))
  /\ convertSortQueryParams P (VArr [VStr EmptyString]) = Throw (Error FieldCannotBeEmpty)
  /\ convertSortQueryParams P (VArr [VStr "id:sideways"]) = Throw (Error OrderOneOf).
Proof.
  repeat split. intros [msg H]. discriminate H.
Qed.

(* ================================================================== *)
(** ** The keys of a string *)

Lemma lastIndexOf_uint (u : Decimal.uint) :
  Str.lastIndexOf "_" (NilEmpty.string_of_uint u) = None.
Proof.
  induction u; simpl; try rewrite IHu; reflexivity.
Qed.

(** On an array index the splitter does not call the parser it is given. *)
Lemma convertWhereClause_index (rec rec' : value -> result (list value))
  (i : nat) (val : value) :
  convertWhereClause rec (Str.of_nat i) val = convertWhereClause rec' (Str.of_nat i) val.
Proof.
  unfold convertWhereClause, Str.of_nat. now rewrite lastIndexOf_uint.
Qed.

Lemma indexed_keys (l : list value) (k : string) (v : value) :
  In (k, v) (Obj.indexed l) -> exists i, k = Str.of_nat i.
Proof.
  unfold Obj.indexed. intros H. apply in_combine_l in H.
  apply in_map_iff in H. destruct H as [i [<- _]]. now exists i.
Qed.

Lemma mapEntriesM_ext {B : Type} (f g : string -> value -> result B) (o : Obj.t) :
  (forall k v, In (k, v) o -> f k v = g k v) ->
  mapEntriesM f o = mapEntriesM g o.
Proof.
  induction o as [| [k v] o IH]; simpl; intros H.
  - reflexivity.
  - rewrite (H k v) by now left. rewrite IH; [reflexivity |].
    intros k' v' Hin. apply H. now right.
Qed.

(** The clauses of a string are those any parser of groups would give: its
    keys are indices, the recursive edge is not taken. *)
Lemma convertWhereParams_string (rec : value -> result (list value)) (s : string) :
  convertWhereParams (VStr s)
  = mapEntriesM
      (fun whereClause val =>
         parsed <- convertWhereClause rec whereClause val ;; Ok (pushedClause parsed))
      (Obj.own (VStr s)).
Proof.
  simpl. apply mapEntriesM_ext. intros k v Hin.
  apply indexed_keys in Hin. destruct Hin as [i ->].
  now rewrite (convertWhereClause_index noGroups rec).
Qed.

(* ================================================================== *)
(** ** The guard and the early exit of the dispatcher *)

(** Raw params that are given and are not an object, or are null, are refused
    with the name of their type, [null] for null, whatever the defaults. *)
Theorem convertRestQueryParams_refuses_non_object (P : platform)
  (params defaults : value) :
  params <> VUndefined ->
  typeof params <> "object" \/ params = VNull ->
  convertRestQueryParams P params defaults
  = Throw (Error (ExpectedObject
                    (match params with VNull => "null" | _ => typeof params end))).
Proof.
  intros Hu Hp. destruct params; try reflexivity.
  - now elim Hu.
  - destruct Hp as [Hp | Hp]; [now elim Hp | discriminate Hp].
  - destruct Hp as [Hp | Hp]; [now elim Hp | discriminate Hp].
Qed.

Lemma convertRestQueryParams_refuses_non_object_witness :
  convertRestQueryParams sample_platform (VStr "_limit=5") (VObj [])
  = Throw (Error (ExpectedObject "string"))
  /\ convertRestQueryParams sample_platform VNull (VObj [])
     = Throw (Error (ExpectedObject "null")).
Proof.
  split.
  - apply (convertRestQueryParams_refuses_non_object sample_platform
             (VStr "_limit=5") (VObj [])); [discriminate | left; discriminate].
  - apply (convertRestQueryParams_refuses_non_object sample_platform VNull (VObj []));
      [discriminate | right; reflexivity].
Defined.

Lemma get_fold_set (k : string) (src o : Obj.t) :
  k <> "__proto__" ->
  NoDup (Obj.keys src) ->
  Obj.get k (fold_left (fun acc p => Obj.set (fst p) (snd p) acc) src o)
  = match Obj.get k src with
    | Some v => Some v
    | None => Obj.get k o
    end.
Proof.
  intros Hk. apply String.eqb_neq in Hk.
  revert o. induction src as [| [k1 v1] src IH]; simpl; intros o Hnd.
  - reflexivity.
  - inversion Hnd as [| ? ? Hk1 Hnd']; subst. rewrite (IH _ Hnd').
    destruct (k1 =? k) eqn:E.
    + apply String.eqb_eq in E. subst k1.
      apply get_None_notin in Hk1. rewrite Hk1.
      now rewrite get_set, Hk, String.eqb_refl.
    + destruct (Obj.get k src); [reflexivity |].
      rewrite get_set, E. now destruct (k1 =? "__proto__").
Qed.

(** With no raw params (omitted, an empty object, an empty array) the
    dispatcher returns the seed overlaid with the defaults and parses nothing:
    every key of a well-formed defaults object reads back with its value, and
    [start] and [limit] read 0 and 100 when the defaults do not carry them. *)
Theorem empty_params_return_defaults (P : platform) (params : value) (d : Obj.t) :
  params = VUndefined \/ params = VObj [] \/ params = VArr [] ->
  NoDup (Obj.keys d) ->
  exists r,
    convertRestQueryParams P params (VObj d) = Ok r
    /\ (forall k v, k <> "__proto__" -> Obj.get k d = Some v -> Obj.prop k r = v)
    /\ (Obj.get "start" d = None -> Obj.prop "start" r = num 0)
    /\ (Obj.get "limit" d = None -> Obj.prop "limit" r = num 100)
    /\ (forall k, k <> "start" -> k <> "limit" -> Obj.get k d = None ->
                  Obj.lodash_has k r = false).
Proof.
  intros Hp Hnd. exists (VObj (seededParams (VObj d))). split.
  - destruct Hp as [-> | [-> | ->]]; reflexivity.
  - unfold seededParams, Obj.assign. simpl Obj.own. repeat split.
    + intros k v Hk Hget. simpl. now rewrite (get_fold_set _ _ _ Hk Hnd), Hget.
    + intros Hget. simpl. rewrite get_fold_set, Hget by (assumption || discriminate).
      reflexivity.
    + intros Hget. simpl. rewrite get_fold_set, Hget by (assumption || discriminate).
      reflexivity.
    + intros k Hs Hl Hget. simpl. unfold Obj.has.
      destruct (String.eqb_spec k "__proto__") as [-> | Hk].
      * assert (Hinv : forall src o,
                   Obj.get "__proto__" o = None ->
                   Obj.get "__proto__"
                     (fold_left (fun acc p => Obj.set (fst p) (snd p) acc) src o) = None).
        { induction src as [| [k1 v1] src IH]; simpl; intros o Ho; [exact Ho |].
          apply IH. rewrite get_set.
          destruct (k1 =? "__proto__") eqn:E; [exact Ho | exact Ho]. }
        rewrite Hinv; reflexivity.
      * rewrite (get_fold_set _ _ _ Hk Hnd), Hget. cbn [Obj.get].
        apply not_eq_sym in Hs. apply not_eq_sym in Hl.
        apply String.eqb_neq in Hs. apply String.eqb_neq in Hl.
        now rewrite Hs, Hl.
Qed.

Lemma empty_params_return_defaults_witness :
  let d := [("limit", num 25); ("lang", VStr "en")] in
  NoDup (Obj.keys d)
  /\ exists r,
       convertRestQueryParams sample_platform VUndefined (VObj d) = Ok r
       /\ Obj.prop "lang" r = VStr "en"
       /\ Obj.prop "limit" r = num 25
       /\ Obj.prop "start" r = num 0.
Proof.
  intros d.
  assert (Hnd : NoDup (Obj.keys d)).
  { repeat constructor; simpl; intuition discriminate. }
  split; [exact Hnd |].
  destruct (empty_params_return_defaults sample_platform VUndefined d
              (or_introl eq_refl) Hnd) as [r [Hr [Hget [Hstart _]]]].
  exists r. split; [exact Hr |]. split; [| split].
  - apply Hget; [discriminate | reflexivity].
  - apply Hget; [discriminate | reflexivity].
  - apply Hstart. reflexivity.
Defined.

(* ================================================================== *)
(** ** Success and failure of the dispatcher *)

Lemma seededParams_undefined (defaults : value) :
  seededParams (match defaults with VUndefined => VObj [] | _ => defaults end)
  = seededParams defaults.
Proof. destruct defaults; reflexivity. Qed.

(** The dispatcher on params that are not empty, as the sequence of its
    steps. *)
Lemma convertRestQueryParams_nonempty (P : platform) (params defaults : value) :
  nonempty_params params ->
  convertRestQueryParams P params defaults
  = (fp1 <- sortStep P params (seededParams defaults) ;;
     fp2 <- startStep P params fp1 ;;
     fp3 <- limitStep P params fp2 ;;
     fp4 <- publicationStateStep P params fp3 ;;
     extraClauses <- extraRootStep params ;;
     whereClauses <- whereStep params extraClauses ;;
     Ok (VObj (Obj.set "where" (VArr whereClauses) fp4))).
Proof.
  intros [Hty [Hnull Hown]].
  rewrite <- (seededParams_undefined defaults).
  unfold convertRestQueryParams.
  assert (Hp : match params with VUndefined => VObj [] | _ => params end = params)
    by (destruct params; try reflexivity; discriminate Hty).
  rewrite Hp, Hty.
  replace (match params with VNull => true | _ => false end) with false
    by (destruct params; try reflexivity; now elim Hnull).
  simpl. rewrite (own_nonempty _ Hown). reflexivity.
Qed.

Lemma sortStep_accepted (P : platform) (params : value) (fp : Obj.t) :
  accepted (convertSortQueryParams P) "_sort" params <->
  exists fp', sortStep P params fp = Ok fp'.
Proof.
  unfold accepted, sortStep. destruct (Obj.lodash_has "_sort" params); split.
  - intros H. destruct (H eq_refl) as [a ->]. eexists. reflexivity.
  - intros [fp' H] _. inv_bind H. eauto.
  - intros _. eauto.
  - intros _ H. discriminate H.
Qed.

Lemma startStep_accepted (P : platform) (params : value) (fp : Obj.t) :
  accepted (convertStartQueryParams P) "_start" params <->
  exists fp', startStep P params fp = Ok fp'.
Proof.
  unfold accepted, startStep. destruct (Obj.lodash_has "_start" params); split.
  - intros H. destruct (H eq_refl) as [a ->]. eexists. reflexivity.
  - intros [fp' H] _. inv_bind H. eauto.
  - intros _. eauto.
  - intros _ H. discriminate H.
Qed.

Lemma limitStep_accepted (P : platform) (params : value) (fp : Obj.t) :
  accepted (convertLimitQueryParams P) "_limit" params <->
  exists fp', limitStep P params fp = Ok fp'.
Proof.
  unfold accepted, limitStep. destruct (Obj.lodash_has "_limit" params); split.
  - intros H. destruct (H eq_refl) as [a ->]. eexists. reflexivity.
  - intros [fp' H] _. inv_bind H. eauto.
  - intros _. eauto.
  - intros _ H. discriminate H.
Qed.

Lemma publicationStateStep_accepted (P : platform) (params : value) (fp : Obj.t) :
  accepted (convertPublicationStateParams P) "_publicationState" params <->
  exists fp', publicationStateStep P params fp = Ok fp'.
Proof.
  unfold accepted, publicationStateStep.
  destruct (Obj.lodash_has "_publicationState" params); split.
  - intros H. destruct (H eq_refl) as [a ->]. eexists. reflexivity.
  - intros [fp' H] _. inv_bind H. eauto.
  - intros _. eauto.
  - intros _ H. discriminate H.
Qed.

Lemma whereStep_accepted (params : value) (extraClauses : list value) :
  accepted convertWhereParams "_where" params <->
  exists clauses, whereStep params extraClauses = Ok clauses.
Proof.
  unfold accepted, whereStep. destruct (Obj.lodash_has "_where" params); split.
  - intros H. destruct (H eq_refl) as [a ->]. eexists. reflexivity.
  - intros [fp' H] _. inv_bind H. eauto.
  - intros _. eauto.
  - intros _ H. discriminate H.
Qed.

(** On params that are not empty the call succeeds exactly when each scalar
    parameter that is present is accepted by its parser, the extra-root params
    parse as filters, and [_where], when present, parses as filters: the
    parameters do not bear on one another, and the defaults never make a call
    fail. *)
Theorem convertRestQueryParams_succeeds_iff (P : platform) (params defaults : value) :
  nonempty_params params ->
  (exists r, convertRestQueryParams P params defaults = Ok r)
  <-> accepted (convertSortQueryParams P) "_sort" params
      /\ accepted (convertStartQueryParams P) "_start" params
      /\ accepted (convertLimitQueryParams P) "_limit" params
      /\ accepted (convertPublicationStateParams P) "_publicationState" params
      /\ (exists clauses, convertWhereParams (VObj (extraRootParams params)) = Ok clauses)
      /\ accepted convertWhereParams "_where" params.
Proof.
  intros Hne. split.
  - intros [r H].
    destruct (convertRestQueryParams_steps _ _ _ _ Hne H)
      as [fp1 [fp2 [fp3 [fp4 [ex [wc [H1 [H2 [H3 [H4 [H5 [H6 _]]]]]]]]]]]].
    repeat split.
    + eapply sortStep_accepted; eauto.
    + eapply startStep_accepted; eauto.
    + eapply limitStep_accepted; eauto.
    + eapply publicationStateStep_accepted; eauto.
    + rewrite extraRootStep_parse in H5. eauto.
    + eapply whereStep_accepted; eauto.
  - intros [H1 [H2 [H3 [H4 [[ex H5] H6]]]]].
    rewrite (convertRestQueryParams_nonempty _ _ _ Hne).
    destruct (proj1 (sortStep_accepted P params (seededParams defaults)) H1) as [fp1 ->].
    cbn [bind].
    destruct (proj1 (startStep_accepted P params fp1) H2) as [fp2 ->]. cbn [bind].
    destruct (proj1 (limitStep_accepted P params fp2) H3) as [fp3 ->]. cbn [bind].
    destruct (proj1 (publicationStateStep_accepted P params fp3) H4) as [fp4 ->].
    cbn [bind]. rewrite extraRootStep_parse, H5. cbn [bind].
    destruct (proj1 (whereStep_accepted params ex) H6) as [wc ->]. cbn [bind].
    eauto.
Qed.

Lemma convertRestQueryParams_succeeds_iff_witness :
  let params := VObj [("_limit", VStr "10"); ("title_contains", VStr "x")] in
  nonempty_params params
  /\ exists r, convertRestQueryParams sample_platform params (VObj []) = Ok r.
Proof.
  intros params.
  assert (Hne : nonempty_params params) by (repeat split; discriminate).
  split; [exact Hne |].
  apply (proj2 (convertRestQueryParams_succeeds_iff sample_platform params (VObj []) Hne)).
  repeat split; try (intros H; discriminate H); try (eexists; reflexivity).
Defined.




(* ================================================================== *)
(** ** What the descriptor holds *)

Lemma get_set_other (k k' : string) (v : value) (o : Obj.t) :
  k <> k' -> Obj.get k (Obj.set k' v o) = Obj.get k o.
Proof.
  intros Hne. rewrite get_set. destruct (k' =? "__proto__"); [reflexivity |].
  apply not_eq_sym in Hne. apply String.eqb_neq in Hne. now rewrite Hne.
Qed.

Lemma sortStep_get (P : platform) (params : value) (fp fp' : Obj.t) (k : string) :
  sortStep P params fp = Ok fp' ->
  (k <> "sort" -> Obj.get k fp' = Obj.get k fp)
  /\ (Obj.lodash_has "_sort" params = false -> fp' = fp)
  /\ (Obj.lodash_has "_sort" params = true ->
      exists sort, convertSortQueryParams P (Obj.prop "_sort" params) = Ok sort
                   /\ Obj.get "sort" fp' = Some (VArr sort)).
Proof.
  unfold sortStep. intros H. destruct (Obj.lodash_has "_sort" params).
  - inv_bind H. inv_Ok H. split; [| split; [discriminate |]].
    + intros Hk. now apply get_set_other.
    + intros _. exists a. split; [exact Ha |]. now rewrite get_set.
  - inv_Ok H. split; [reflexivity | split; [reflexivity | discriminate]].
Qed.

Lemma startStep_get (P : platform) (params : value) (fp fp' : Obj.t) (k : string) :
  startStep P params fp = Ok fp' ->
  (k <> "start" -> Obj.get k fp' = Obj.get k fp)
  /\ (Obj.lodash_has "_start" params = false -> fp' = fp)
  /\ (Obj.lodash_has "_start" params = true ->
      exists n, convertStartQueryParams P (Obj.prop "_start" params) = Ok n
                /\ Obj.get "start" fp' = Some (VNum n)).
Proof.
  unfold startStep. intros H. destruct (Obj.lodash_has "_start" params).
  - inv_bind H. inv_Ok H. split; [| split; [discriminate |]].
    + intros Hk. now apply get_set_other.
    + intros _. exists a. split; [exact Ha |]. now rewrite get_set.
  - inv_Ok H. split; [reflexivity | split; [reflexivity | discriminate]].
Qed.

Lemma limitStep_get (P : platform) (params : value) (fp fp' : Obj.t) (k : string) :
  limitStep P params fp = Ok fp' ->
  (k <> "limit" -> Obj.get k fp' = Obj.get k fp)
  /\ (Obj.lodash_has "_limit" params = false -> fp' = fp)
  /\ (Obj.lodash_has "_limit" params = true ->
      exists n, convertLimitQueryParams P (Obj.prop "_limit" params) = Ok n
                /\ Obj.get "limit" fp' = Some (VNum n)).
Proof.
  unfold limitStep. intros H. destruct (Obj.lodash_has "_limit" params).
  - inv_bind H. inv_Ok H. split; [| split; [discriminate |]].
    + intros Hk. now apply get_set_other.
    + intros _. exists a. split; [exact Ha |]. now rewrite get_set.
  - inv_Ok H. split; [reflexivity | split; [reflexivity | discriminate]].
Qed.

Lemma convertPublicationStateParams_Ok (P : platform) (v state : value) :
  convertPublicationStateParams P v = Ok state ->
  exists s, v = VStr s /\ In s (DP_PUB_STATES P)
            /\ state = VObj [("publicationState", VStr s)].
Proof.
  unfold convertPublicationStateParams. intros H.
  destruct v as [| | b | n | s | l | o]; try discriminate H.
  destruct (Str.includes s (DP_PUB_STATES P)) eqn:E; [| discriminate H].
  inv_Ok H. exists s. split; [reflexivity |]. split; [now apply includes_In | reflexivity].
Qed.

Lemma publicationStateStep_get (P : platform) (params : value) (fp fp' : Obj.t)
  (k : string) :
  publicationStateStep P params fp = Ok fp' ->
  (k <> "publicationState" -> Obj.get k fp' = Obj.get k fp)
  /\ (Obj.lodash_has "_publicationState" params = false -> fp' = fp)
  /\ (Obj.lodash_has "_publicationState" params = true ->
      exists s, Obj.prop "_publicationState" params = VStr s
                /\ In s (DP_PUB_STATES P)
                /\ Obj.get "publicationState" fp' = Some (VStr s)).
Proof.
  unfold publicationStateStep. intros H.
  destruct (Obj.lodash_has "_publicationState" params).
  - inv_bind H. inv_Ok H.
    destruct (convertPublicationStateParams_Ok _ _ _ Ha) as [s [Hs [Hin ->]]].
    change (Obj.assign fp (VObj [("publicationState", VStr s)]))
      with (Obj.set "publicationState" (VStr s) fp).
    split; [| split; [discriminate |]].
    + intros Hk. now apply get_set_other.
    + intros _. exists s. split; [exact Hs |]. split; [exact Hin |]. now rewrite get_set.
  - inv_Ok H. split; [reflexivity | split; [reflexivity | discriminate]].
Qed.

Lemma convertStartQueryParams_toNumber (P : platform) (v : value) (n : number) :
  convertStartQueryParams P v = Ok n -> toNumber P v = Ok n.
Proof.
  unfold convertStartQueryParams. intros H. inv_bind H.
  destruct (negb (Num.isInteger a) || Num.ltb0 a); [discriminate H |]. now inv_Ok H.
Qed.

Lemma convertLimitQueryParams_toNumber (P : platform) (v : value) (n : number) :
  convertLimitQueryParams P v = Ok n -> toNumber P v = Ok n.
Proof.
  unfold convertLimitQueryParams. intros H. inv_bind H.
  destruct (negb (Num.isInteger a) || (negb (Num.eqb a (Int (-1))) && Num.ltb0 a));
    [discriminate H |].
  now inv_Ok H.
Qed.

Lemma prop_get (k : string) (o o' : Obj.t) :
  Obj.get k o = Obj.get k o' -> Obj.prop k (VObj o) = Obj.prop k (VObj o').
Proof. simpl. now intros ->. Qed.

(** In the descriptor of params that are not empty, [start] is the number
    [_start] coerces to when the params carry [_start], and the [start] of the
    defaults over the seed otherwise; the same holds of [limit] and
    [_limit].  The raw params win over the defaults. *)
Theorem descriptor_start_limit (P : platform) (params defaults r : value) :
  nonempty_params params ->
  convertRestQueryParams P params defaults = Ok r ->
  (Obj.lodash_has "_start" params = true ->
   exists n, toNumber P (Obj.prop "_start" params) = Ok n
             /\ Obj.prop "start" r = VNum n)
  /\ (Obj.lodash_has "_start" params = false ->
      Obj.prop "start" r = Obj.prop "start" (VObj (seededParams defaults)))
  /\ (Obj.lodash_has "_limit" params = true ->
      exists n, toNumber P (Obj.prop "_limit" params) = Ok n
                /\ Obj.prop "limit" r = VNum n)
  /\ (Obj.lodash_has "_limit" params = false ->
      Obj.prop "limit" r = Obj.prop "limit" (VObj (seededParams defaults))).
Proof.
  intros Hne H.
  destruct (convertRestQueryParams_steps _ _ _ _ Hne H)
    as [fp1 [fp2 [fp3 [fp4 [ex [wc [H1 [H2 [H3 [H4 [_ [_ ->]]]]]]]]]]]].
  rewrite seededParams_undefined in H1.
  assert (Hstart : Obj.get "start" (Obj.set "where" (VArr wc) fp4) = Obj.get "start" fp2).
  { rewrite get_set_other by discriminate.
    rewrite (proj1 (publicationStateStep_get _ _ _ _ "start" H4)) by discriminate.
    apply (proj1 (limitStep_get _ _ _ _ "start" H3)). discriminate. }
  assert (Hlimit : Obj.get "limit" (Obj.set "where" (VArr wc) fp4) = Obj.get "limit" fp3).
  { rewrite get_set_other by discriminate.
    apply (proj1 (publicationStateStep_get _ _ _ _ "limit" H4)). discriminate. }
  repeat split.
  - intros Hh. destruct (proj2 (proj2 (startStep_get _ _ _ _ "start" H2)) Hh)
      as [n [Hn Hget]].
    exists n. split; [now apply convertStartQueryParams_toNumber |].
    simpl. now rewrite Hstart, Hget.
  - intros Hh. apply prop_get. rewrite Hstart.
    rewrite (proj1 (proj2 (startStep_get _ _ _ _ "start" H2)) Hh).
    apply (proj1 (sortStep_get _ _ _ _ "start" H1)). discriminate.
  - intros Hh. destruct (proj2 (proj2 (limitStep_get _ _ _ _ "limit" H3)) Hh)
      as [n [Hn Hget]].
    exists n. split; [now apply convertLimitQueryParams_toNumber |].
    simpl. now rewrite Hlimit, Hget.
  - intros Hh. apply prop_get. rewrite Hlimit.
    rewrite (proj1 (proj2 (limitStep_get _ _ _ _ "limit" H3)) Hh).
    rewrite (proj1 (startStep_get _ _ _ _ "limit" H2)) by discriminate.
    apply (proj1 (sortStep_get _ _ _ _ "limit" H1)). discriminate.
Qed.

Lemma descriptor_start_limit_witness :
  let params := VObj [("_start", VStr "20")] in
  let defaults := VObj [("start", num 5); ("limit", num 10)] in
  nonempty_params params
  /\ exists r,
       convertRestQueryParams sample_platform params defaults = Ok r
       /\ Obj.prop "start" r = num 20
       /\ Obj.prop "limit" r = num 10.
Proof.
  intros params defaults.
  assert (Hne : nonempty_params params) by (repeat split; discriminate).
  split; [exact Hne |]. eexists. split; [reflexivity |].
  destruct (descriptor_start_limit sample_platform params defaults _ Hne eq_refl)
    as [Hs [_ [_ Hl]]].
  split.
  - destruct (Hs eq_refl) as [n [Hn Hr]]. injection Hn as <-. exact Hr.
  - exact (Hl eq_refl).
Defined.

(** In the descriptor of params that are not empty, [sort] is the list the
    sort parser returns for [_sort], and [publicationState] is the value of
    [_publicationState], a string of the publication states; a parameter that
    is absent leaves what the defaults carry. *)
Theorem descriptor_sort_publicationState (P : platform) (params defaults r : value) :
  nonempty_params params ->
  convertRestQueryParams P params defaults = Ok r ->
  (Obj.lodash_has "_sort" params = true ->
   exists sort, convertSortQueryParams P (Obj.prop "_sort" params) = Ok sort
                /\ Obj.prop "sort" r = VArr sort)
  /\ (Obj.lodash_has "_sort" params = false ->
      Obj.prop "sort" r = Obj.prop "sort" (VObj (seededParams defaults)))
  /\ (Obj.lodash_has "_publicationState" params = true ->
      exists s, Obj.prop "_publicationState" params = VStr s
                /\ In s (DP_PUB_STATES P)
                /\ Obj.prop "publicationState" r = VStr s)
  /\ (Obj.lodash_has "_publicationState" params = false ->
      Obj.prop "publicationState" r
      = Obj.prop "publicationState" (VObj (seededParams defaults))).
Proof.
  intros Hne H.
  destruct (convertRestQueryParams_steps _ _ _ _ Hne H)
    as [fp1 [fp2 [fp3 [fp4 [ex [wc [H1 [H2 [H3 [H4 [_ [_ ->]]]]]]]]]]]].
  rewrite seededParams_undefined in H1.
  assert (Hsort : Obj.get "sort" (Obj.set "where" (VArr wc) fp4) = Obj.get "sort" fp1).
  { rewrite get_set_other by discriminate.
    rewrite (proj1 (publicationStateStep_get _ _ _ _ "sort" H4)) by discriminate.
    rewrite (proj1 (limitStep_get _ _ _ _ "sort" H3)) by discriminate.
    apply (proj1 (startStep_get _ _ _ _ "sort" H2)). discriminate. }
  assert (Hstate : Obj.get "publicationState" (Obj.set "where" (VArr wc) fp4)
                   = Obj.get "publicationState" fp4).
  { apply get_set_other. discriminate. }
  repeat split.
  - intros Hh. destruct (proj2 (proj2 (sortStep_get _ _ _ _ "sort" H1)) Hh)
      as [sort [Hs Hget]].
    exists sort. split; [exact Hs |]. simpl. now rewrite Hsort, Hget.
  - intros Hh. apply prop_get. rewrite Hsort.
    now rewrite (proj1 (proj2 (sortStep_get _ _ _ _ "sort" H1)) Hh).
  - intros Hh.
    destruct (proj2 (proj2 (publicationStateStep_get _ _ _ _ "publicationState" H4)) Hh)
      as [s [Hs [Hin Hget]]].
    exists s. split; [exact Hs |]. split; [exact Hin |]. simpl. now rewrite Hstate, Hget.
  - intros Hh. apply prop_get. rewrite Hstate.
    rewrite (proj1 (proj2 (publicationStateStep_get _ _ _ _ "publicationState" H4)) Hh).
    rewrite (proj1 (limitStep_get _ _ _ _ "publicationState" H3)) by discriminate.
    rewrite (proj1 (startStep_get _ _ _ _ "publicationState" H2)) by discriminate.
    apply (proj1 (sortStep_get _ _ _ _ "publicationState" H1)). discriminate.
Qed.

Lemma descriptor_sort_publicationState_witness :
  let params := VObj [("_sort", VStr "name:DESC"); ("_publicationState", VStr "preview")] in
  nonempty_params params
  /\ exists r,
       convertRestQueryParams sample_platform params (VObj []) = Ok r
       /\ Obj.prop "sort" r = VArr [VObj [("name", VStr "desc")]]
       /\ Obj.prop "publicationState" r = VStr "preview".
Proof.
  intros params.
  assert (Hne : nonempty_params params) by (repeat split; discriminate).
  split; [exact Hne |]. eexists. split; [reflexivity |].
  destruct (descriptor_sort_publicationState sample_platform params (VObj []) _ Hne eq_refl)
    as [Hs [_ [Hp _]]].
  split.
  - destruct (Hs eq_refl) as [sort [Hsort Hr]]. injection Hsort as <-. exact Hr.
  - destruct (Hp eq_refl) as [s [Hv [_ Hr]]]. injection Hv as <-. exact Hr.
Defined.

Lemma descriptor_other_key (P : platform) (params defaults r : value) (k : string) :
  ~ In k DESCRIPTOR_KEYS ->
  convertRestQueryParams P params defaults = Ok r ->
  exists o, r = VObj o /\ Obj.get k o = Obj.get k (seededParams defaults).
Proof.
  intros Hk H.
  assert (Hk' : k <> "sort" /\ k <> "start" /\ k <> "limit"
                /\ k <> "publicationState" /\ k <> "where").
  { simpl in Hk. repeat split; intros ->; apply Hk; tauto. }
  destruct Hk' as [K1 [K2 [K3 [K4 K5]]]].
  destruct (convertRestQueryParams_cases _ _ _ _ H) as [-> | Hne].
  { eexists. split; reflexivity. }
  destruct (convertRestQueryParams_steps _ _ _ _ Hne H)
    as [fp1 [fp2 [fp3 [fp4 [ex [wc [H1 [H2 [H3 [H4 [_ [_ ->]]]]]]]]]]]].
  rewrite seededParams_undefined in H1.
  eexists. split; [reflexivity |]. rewrite get_set_other by exact K5.
  rewrite (proj1 (publicationStateStep_get _ _ _ _ k H4)) by exact K4.
  rewrite (proj1 (limitStep_get _ _ _ _ k H3)) by exact K3.
  rewrite (proj1 (startStep_get _ _ _ _ k H2)) by exact K2.
  apply (proj1 (sortStep_get _ _ _ _ k H1)). exact K1.
Qed.

(** Whatever the raw params, a key of a well-formed defaults object other
    than [sort], [start], [limit], [publicationState], [where] and [__proto__]
    is a key of the descriptor, with the value the defaults give it; and such
    a key that the defaults do not carry is not a key of the descriptor. *)
Theorem descriptor_keeps_other_defaults (P : platform) (params r : value) (d : Obj.t)
  (k : string) :
  ~ In k DESCRIPTOR_KEYS ->
  k <> "__proto__" ->
  NoDup (Obj.keys d) ->
  convertRestQueryParams P params (VObj d) = Ok r ->
  (forall v, Obj.get k d = Some v -> Obj.prop k r = v)
  /\ (Obj.get k d = None -> Obj.lodash_has k r = false).
Proof.
  intros Hk Hp Hnd H.
  destruct (descriptor_other_key _ _ _ _ _ Hk H) as [o [-> Hget]].
  unfold seededParams, Obj.assign in Hget. cbn [Obj.own] in Hget.
  rewrite (get_fold_set _ _ _ Hp Hnd) in Hget.
  split.
  - intros v Hv. rewrite Hv in Hget. simpl. now rewrite Hget.
  - intros Hnone. rewrite Hnone in Hget. simpl. unfold Obj.has. rewrite Hget.
    assert (K2 : k <> "start") by (intros ->; apply Hk; simpl; tauto).
    assert (K3 : k <> "limit") by (intros ->; apply Hk; simpl; tauto).
    apply not_eq_sym in K2. apply not_eq_sym in K3.
    apply String.eqb_neq in K2. apply String.eqb_neq in K3.
    cbn [Obj.get]. now rewrite K2, K3.
Qed.

Lemma descriptor_keeps_other_defaults_witness :
  let params := VObj [("_limit", VStr "3"); ("title", VStr "x")] in
  let d := [("populate", VArr [VStr "author"])] in
  ~ In "populate" DESCRIPTOR_KEYS
  /\ NoDup (Obj.keys d)
  /\ exists r,
       convertRestQueryParams sample_platform params (VObj d) = Ok r
       /\ Obj.prop "populate" r = VArr [VStr "author"].
Proof.
  intros params d.
  assert (Hk : ~ In "populate" DESCRIPTOR_KEYS).
  { simpl. intuition discriminate. }
  assert (Hnd : NoDup (Obj.keys d)) by (repeat constructor; simpl; tauto).
  split; [exact Hk |]. split; [exact Hnd |]. eexists. split; [reflexivity |].
  apply (proj1 (descriptor_keeps_other_defaults sample_platform params _ d "populate"
                  Hk ltac:(discriminate) Hnd eq_refl)).
  reflexivity.
Defined.

Lemma omit_all (ks : list string) (o : Obj.t) :
  (forall k, In k (Obj.keys o) -> In k ks) -> Obj.omit ks (VObj o) = [].
Proof.
  unfold Obj.omit. simpl. induction o as [| [k v] o IH]; simpl; intros H.
  - reflexivity.
  - assert (Hk : Str.includes k ks = true) by (apply includes_In, H; now left).
    rewrite Hk. simpl. apply IH. intros k' Hin. apply H. now right.
Qed.

(** Raw params that carry scalar parameters only (some of [_sort], [_start],
    [_limit], [_publicationState], at least one) give a descriptor with an
    empty where list. *)
Theorem scalar_params_give_empty_where (P : platform) (o : Obj.t) (defaults r : value) :
  o <> [] ->
  (forall k, In k (Obj.keys o) -> In k SCALAR_KEYS) ->
  convertRestQueryParams P (VObj o) defaults = Ok r ->
  Obj.prop "where" r = VArr [].
Proof.
  intros Ho Hkeys H.
  assert (Hne : nonempty_params (VObj o)) by (repeat split; try discriminate; exact Ho).
  destruct (convertRestQueryParams_steps _ _ _ _ Hne H)
    as [fp1 [fp2 [fp3 [fp4 [ex [wc [_ [_ [_ [_ [Hex [Hwc ->]]]]]]]]]]]].
  rewrite prop_set_same by discriminate.
  unfold extraRootStep, extraRootParams in Hex.
  rewrite omit_all in Hex.
  2:{ intros k Hin. specialize (Hkeys k Hin). simpl in Hkeys |- *. tauto. }
  simpl in Hex. inv_Ok Hex.
  unfold whereStep in Hwc.
  assert (Hw : Obj.lodash_has "_where" (VObj o) = false).
  { simpl. apply has_get, get_None_notin. intros Hin.
    specialize (Hkeys _ Hin). simpl in Hkeys. intuition discriminate. }
  rewrite Hw in Hwc. now inv_Ok Hwc.
Qed.

Lemma scalar_params_give_empty_where_witness :
  let o := [("_limit", VStr "-1"); ("_sort", VStr "id")] in
  o <> []
  /\ (forall k, In k (Obj.keys o) -> In k SCALAR_KEYS)
  /\ exists r,
       convertRestQueryParams sample_platform (VObj o) (VObj []) = Ok r
       /\ Obj.prop "where" r = VArr [].
Proof.
  intros o.
  assert (Ho : o <> []) by discriminate.
  assert (Hk : forall k, In k (Obj.keys o) -> In k SCALAR_KEYS).
  { simpl. intros k [<- | [<- | []]]; tauto. }
  split; [exact Ho |]. split; [exact Hk |]. eexists. split; [reflexivity |].
  exact (scalar_params_give_empty_where sample_platform o (VObj []) _ Ho Hk eq_refl).
Defined.

(* ================================================================== *)
(** ** The extra-root params *)

Lemma convertExtraRootParams_snoc (params : Obj.t) (k : string) (v : value) :
  convertExtraRootParams (params ++ [(k, v)])
  = Obj.set (strippedKey k) v (convertExtraRootParams params).
Proof.
  unfold convertExtraRootParams.
  rewrite !convertExtraRootParams_fold, fold_left_app. reflexivity.
Qed.

Lemma get_convertExtraRootParams (params : Obj.t) (target : string) :
  target <> "__proto__" ->
  Obj.get target (convertExtraRootParams params) = lastWriter target params.
Proof.
  intros Ht. unfold lastWriter.
  induction params as [| [k v] params IH] using rev_ind.
  - reflexivity.
  - rewrite convertExtraRootParams_snoc, rev_app_distr. simpl.
    rewrite get_set.
    destruct (strippedKey k =? target) eqn:E.
    + apply String.eqb_eq in E. rewrite E.
      apply String.eqb_neq in Ht. now rewrite Ht.
    + rewrite IH. now destruct (strippedKey k =? "__proto__").
Qed.

(** Reading the extra-root params: a key holds the value of the last key of
    the params that is stored under it, and is absent when there is none. *)
Theorem convertExtraRootParams_last_writer (params : Obj.t) (target : string) :
  target <> "__proto__" ->
  Obj.get target (convertExtraRootParams params) = lastWriter target params.
Proof. apply get_convertExtraRootParams. Qed.

Lemma convertExtraRootParams_last_writer_witness :
  "q" <> "__proto__"
  /\ Obj.get "q" (convertExtraRootParams [("q", VStr "a"); ("_q", VStr "b")])
     = Some (VStr "b").
Proof.
  split; [discriminate |].
  exact (convertExtraRootParams_last_writer [("q", VStr "a"); ("_q", VStr "b")] "q"
           ltac:(discriminate)).
Defined.

Lemma find_unique (pred : string * value -> bool) (l : Obj.t) (k : string) (v : value) :
  NoDup (Obj.keys l) ->
  In (k, v) l ->
  pred (k, v) = true ->
  (forall p, In p l -> pred p = true -> fst p = k) ->
  find pred l = Some (k, v).
Proof.
  induction l as [| [k1 v1] l IH]; simpl; intros Hnd Hin Hp Hu.
  - contradiction.
  - inversion Hnd as [| ? ? Hk1 Hnd']; subst.
    destruct (pred (k1, v1)) eqn:E.
    + assert (k1 = k) by (apply (Hu (k1, v1)); [now left | exact E]). subst k1.
      destruct Hin as [Hin | Hin]; [now rewrite Hin |].
      elim Hk1. apply in_map_iff. exists (k, v). split; [reflexivity | exact Hin].
    + destruct Hin as [Hin | Hin]; [rewrite Hin in E; congruence |].
      apply IH; auto.
Qed.

Lemma NoDup_keys_rev (l : Obj.t) : NoDup (Obj.keys l) -> NoDup (Obj.keys (rev l)).
Proof.
  unfold Obj.keys. rewrite map_rev. apply NoDup_rev.
Qed.

(** A key [_k] written with a leading underscore (other than [_where],
    [_or], [_and], and with [k] other than [__proto__]) is read as the key
    without it: when the params do not carry the bare key [k] too, the
    extra-root params hold its value under [k]. *)
Theorem underscore_key_is_alias (params : Obj.t) (k : string) (v : value) :
  NoDup (Obj.keys params) ->
  k <> "__proto__" ->
  ~ In (String "_" k) QUERY_OPERATORS ->
  Obj.get (String "_" k) params = Some v ->
  Obj.get k params = None ->
  Obj.get k (convertExtraRootParams params) = Some v.
Proof.
  intros Hnd Hk Hq Hget Hbare.
  rewrite (get_convertExtraRootParams _ _ Hk). unfold lastWriter.
  rewrite (find_unique _ (rev params) (String "_" k) v).
  - reflexivity.
  - now apply NoDup_keys_rev.
  - apply in_rev. rewrite rev_involutive. now apply get_In.
  - cbn [fst]. unfold strippedKey. apply includes_not_In in Hq.
    cbn [Str.startsWith]. rewrite Ascii.eqb_refl, Hq. simpl. apply String.eqb_refl.
  - intros [k' v'] Hin Hp. cbn [fst] in *. apply String.eqb_eq in Hp.
    apply strippedKey_target in Hp. destruct Hp as [-> | ->]; [| reflexivity].
    apply in_rev in Hin. apply get_None_notin in Hbare. elim Hbare.
    apply in_map_iff. exists (k, v'). split; [reflexivity | exact Hin].
Qed.

Lemma underscore_key_is_alias_witness :
  let params := [("_q", VStr "rocq"); ("title", VStr "x")] in
  NoDup (Obj.keys params)
  /\ Obj.get "q" (convertExtraRootParams params) = Some (VStr "rocq").
Proof.
  intros params.
  assert (Hnd : NoDup (Obj.keys params)).
  { repeat constructor; simpl; intuition discriminate. }
  split; [exact Hnd |].
  apply (underscore_key_is_alias params "q" (VStr "rocq") Hnd).
  - discriminate.
  - simpl. intuition discriminate.
  - reflexivity.
  - reflexivity.
Defined.

Lemma keys_replace (k : string) (v : value) (o : Obj.t) :
  Obj.keys (Obj.replace k v o) = Obj.keys o.
Proof.
  induction o as [| [k' v'] o IH]; simpl; [reflexivity |].
  destruct (k' =? k); simpl; [reflexivity | now rewrite IH].
Qed.

Lemma keys_insert_index (i : Z) (k : string) (v : value) (o : Obj.t) (x : string) :
  In x (Obj.keys (Obj.insert_index i k v o)) <-> x = k \/ In x (Obj.keys o).
Proof.
  induction o as [| [k' v'] o IH]; simpl.
  - intuition.
  - destruct (Obj.array_index k') as [j |]; [destruct (i <? j)%Z |]; simpl;
      rewrite ?IH; intuition.
Qed.

Lemma NoDup_insert_index (i : Z) (k : string) (v : value) (o : Obj.t) :
  ~ In k (Obj.keys o) -> NoDup (Obj.keys o) ->
  NoDup (Obj.keys (Obj.insert_index i k v o)).
Proof.
  induction o as [| [k' v'] o IH]; simpl; intros Hk Hnd.
  - repeat constructor. intros [].
  - inversion Hnd as [| ? ? Hk' Hnd']; subst.
    destruct (Obj.array_index k') as [j |]; [destruct (i <? j)%Z |]; simpl.
    + constructor; [exact Hk | exact Hnd].
    + constructor; [| apply IH; tauto].
      rewrite keys_insert_index. intros [-> | Hin]; tauto.
    + constructor; [exact Hk | exact Hnd].
Qed.

Lemma keys_set (k : string) (v : value) (o : Obj.t) (x : string) :
  In x (Obj.keys (Obj.set k v o)) -> x = k \/ In x (Obj.keys o).
Proof.
  unfold Obj.set. destruct (k =? "__proto__"); [tauto |].
  destruct (Obj.has k o); [rewrite keys_replace; tauto |].
  destruct (Obj.array_index k).
  - now rewrite keys_insert_index.
  - unfold Obj.keys. rewrite map_app, in_app_iff. simpl. intuition auto.
Qed.

Lemma NoDup_set (k : string) (v : value) (o : Obj.t) :
  NoDup (Obj.keys o) -> NoDup (Obj.keys (Obj.set k v o)).
Proof.
  intros Hnd. unfold Obj.set. destruct (k =? "__proto__"); [exact Hnd |].
  destruct (Obj.has k o) eqn:Hh; [now rewrite keys_replace |].
  apply has_get, get_None_notin in Hh.
  destruct (Obj.array_index k).
  - now apply NoDup_insert_index.
  - unfold Obj.keys. rewrite map_app. simpl.
    apply NoDup_app; [exact Hnd | repeat constructor; intros [] |].
    intros x Hx [<- | []]. contradiction.
Qed.

(** Whatever the params, the extra-root params are a well-formed object: no
    key comes twice, and every key is the stored form of a key of the params,
    the key itself or the key without its leading underscore. *)
Theorem convertExtraRootParams_well_formed (params : Obj.t) :
  NoDup (Obj.keys (convertExtraRootParams params))
  /\ forall k, In k (Obj.keys (convertExtraRootParams params)) ->
               exists key, In key (Obj.keys params)
                           /\ (key = k \/ key = String "_" k).
Proof.
  induction params as [| [k v] params [IHnd IHkeys]] using rev_ind.
  - split; [constructor | intros k []].
  - rewrite convertExtraRootParams_snoc. split.
    + now apply NoDup_set.
    + intros x Hx. apply keys_set in Hx. unfold Obj.keys. rewrite map_app.
      destruct Hx as [-> | Hx].
      * exists k. split; [apply in_or_app; right; now left |].
        now apply strippedKey_target.
      * destruct (IHkeys _ Hx) as [key [Hin Hkey]].
        exists key. split; [apply in_or_app; now left | exact Hkey].
Qed.

(* ================================================================== *)
(** ** The where parser on lists and on flat objects *)

Lemma concatMapM_app {A B : Type} (f : A -> result (list B)) (l1 l2 : list A) :
  concatMapM f (l1 ++ l2)
  = (c1 <- concatMapM f l1 ;; c2 <- concatMapM f l2 ;; Ok (c1 ++ c2)).
Proof.
  induction l1 as [| x l1 IH]; simpl.
  - now destruct (concatMapM f l2).
  - destruct (f x) as [ys | e]; simpl; [| reflexivity].
    rewrite IH. destruct (concatMapM f l1) as [c1 | e]; simpl; [| reflexivity].
    destruct (concatMapM f l2) as [c2 | e]; simpl; [| reflexivity].
    now rewrite app_assoc.
Qed.

Lemma convertWhereParams_singleton (v : value) :
  convertWhereParams (VArr [v]) = convertWhereParams v.
Proof.
  simpl. destruct (convertWhereParams v) as [c | e]; simpl; [| reflexivity].
  now rewrite app_nil_r.
Qed.

(** A list of filters is parsed element by element and the clauses are put
    end to end: a list of one element parses as the element, the list of two
    lists as the clauses of the first followed by those of the second, and a
    list of lists as the one list of all their elements. *)
Theorem convertWhereParams_flattens_lists :
  (forall v, convertWhereParams (VArr [v]) = convertWhereParams v)
  /\ (forall l1 l2,
        convertWhereParams (VArr (l1 ++ l2))
        = (c1 <- convertWhereParams (VArr l1) ;;
           c2 <- convertWhereParams (VArr l2) ;;
           Ok (c1 ++ c2)))
  /\ (forall lists,
        convertWhereParams (VArr (map VArr lists))
        = convertWhereParams (VArr (List.concat lists))).
Proof.
  split; [exact convertWhereParams_singleton |].
  assert (Happ : forall l1 l2,
             convertWhereParams (VArr (l1 ++ l2))
             = (c1 <- convertWhereParams (VArr l1) ;;
                c2 <- convertWhereParams (VArr l2) ;;
                Ok (c1 ++ c2))).
  { intros l1 l2. simpl. apply concatMapM_app. }
  split; [exact Happ |].
  induction lists as [| l lists IH].
  - reflexivity.
  - change (map VArr (l :: lists)) with ([VArr l] ++ map VArr lists).
    cbn [List.concat]. rewrite !Happ, convertWhereParams_singleton, IH. reflexivity.
Qed.

Lemma mapM_Throw {A B : Type} (f : A -> result B) (l : list A) (e : exception) :
  mapM f l = Throw e -> exists x, In x l /\ f x = Throw e.
Proof.
  induction l as [| x l IH]; simpl; [discriminate |].
  destruct (f x) as [y | e'] eqn:E; simpl.
  - destruct (mapM f l) as [ys | e'']; simpl; [discriminate |].
    intros H. inv_Ok H. destruct (IH eq_refl) as [x' [Hin Hx]]. exists x'. tauto.
  - intros H. inv_Ok H. exists x. tauto.
Qed.

Lemma concatMapM_Throw {A B : Type} (f : A -> result (list B)) (l : list A)
  (e : exception) :
  concatMapM f l = Throw e -> exists x, In x l /\ f x = Throw e.
Proof.
  induction l as [| x l IH]; simpl; [discriminate |].
  destruct (f x) as [y | e'] eqn:E; simpl.
  - destruct (concatMapM f l) as [ys | e'']; simpl; [discriminate |].
    intros H. inv_Ok H. destruct (IH eq_refl) as [x' [Hin Hx]]. exists x'. tauto.
  - intros H. inv_Ok H. exists x. tauto.
Qed.

Lemma mapEntriesM_Throw {B : Type} (f : string -> value -> result B) (o : Obj.t)
  (e : exception) :
  mapEntriesM f o = Throw e -> exists k v, In (k, v) o /\ f k v = Throw e.
Proof.
  induction o as [| [k v] o IH]; simpl; [discriminate |].
  destruct (f k v) as [y | e'] eqn:E; simpl.
  - destruct (mapEntriesM f o) as [ys | e'']; simpl; [discriminate |].
    intros H. inv_Ok H. destruct (IH eq_refl) as [k' [v' [Hin Hx]]]. exists k', v'. tauto.
  - intros H. inv_Ok H. exists k, v. tauto.
Qed.

(** An exception of the splitter is an exception of the parser of groups, on
    the value or on one of its elements. *)
Lemma convertWhereClause_Throw (parser : value -> result (list value))
  (whereClause : string) (val : value) (e : exception) :
  convertWhereClause parser whereClause val = Throw e ->
  parser val = Throw e
  \/ exists elems x, val = VArr elems /\ In x elems /\ parser x = Throw e.
Proof.
  unfold convertWhereClause.
  destruct (Str.lastIndexOf "_" whereClause) as [i |]; [| discriminate].
  destruct (Str.includes (Str.slice (S i) whereClause) BOOLEAN_OPERATORS
            && (Str.substring0 i whereClause =? EmptyString)).
  - destruct val as [| | b | n | s | elems | props].
    6:{ destruct (mapM parser elems) as [gs | e'] eqn:E; simpl; [discriminate |].
        intros H. inv_Ok H. apply mapM_Throw in E. destruct E as [x [Hin Hx]].
        right. exists elems, x. tauto. }
    + destruct (parser VUndefined); simpl; [discriminate | intros H; inv_Ok H; now left].
    + destruct (parser VNull); simpl; [discriminate | intros H; inv_Ok H; now left].
    + destruct (parser (VBool b)); simpl; [discriminate | intros H; inv_Ok H; now left].
    + destruct (parser (VNum n)); simpl; [discriminate | intros H; inv_Ok H; now left].
    + destruct (parser (VStr s)); simpl; [discriminate | intros H; inv_Ok H; now left].
    + destruct (parser (VObj props)); simpl; [discriminate | intros H; inv_Ok H; now left].
  - destruct (negb _); discriminate.
Qed.

Lemma convertWhereParams_TypeError_elems (v : value) :
  (forall e, convertWhereParams v = Throw e -> e = TypeError)
  /\ (forall elems, v = VArr elems ->
        Forall (fun x => forall e, convertWhereParams x = Throw e -> e = TypeError) elems).
Proof.
  induction v as [| | b | n | s | elems IH | props IH] using value_nested_ind;
    (split; [| try discriminate]).
  - intros e H. now inv_Ok H.
  - intros e H. now inv_Ok H.
  - discriminate.
  - discriminate.
  - intros e H. simpl in H. apply mapEntriesM_Throw in H.
    destruct H as [k [v [_ H]]].
    destruct (convertWhereClause noGroups k v) as [parsed | e'] eqn:E; [discriminate H |].
    apply convertWhereClause_Throw in E.
    destruct E as [E | [l [x [_ [_ E]]]]]; discriminate E.
  - intros e H. simpl in H. apply concatMapM_Throw in H.
    destruct H as [x [Hin Hx]]. rewrite Forall_forall in IH.
    now apply (proj1 (IH x Hin)).
  - intros l Hl. injection Hl as <-.
    eapply Forall_impl; [| exact IH]. intros x [Hx _]. exact Hx.
  - intros e H. simpl in H. apply mapEntriesM_Throw in H.
    destruct H as [k [v [Hin H]]].
    destruct (convertWhereClause convertWhereParams k v) as [parsed | e'] eqn:E;
      [discriminate H |].
    simpl in H. inv_Ok H.
    rewrite Forall_forall in IH. specialize (IH _ Hin). simpl in IH.
    destruct IH as [IHv IHe].
    apply convertWhereClause_Throw in E.
    destruct E as [E | [l [x [Hl [Hx E]]]]].
    + now apply IHv.
    + specialize (IHe _ Hl). rewrite Forall_forall in IHe. now apply (IHe x Hx).
Qed.

(** The where parser refuses nothing by itself: it throws no [Error], and
    the only exception of a call is the [TypeError] of the language, raised
    when the parser is sent to [null] or [undefined]. *)
Theorem convertWhereParams_throws_only_TypeError (v : value) (e : exception) :
  convertWhereParams v = Throw e -> e = TypeError.
Proof. apply convertWhereParams_TypeError_elems. Qed.

Lemma convertWhereParams_throws_only_TypeError_witness :
  convertWhereParams (VObj [("_or", VArr [VObj [("a", num 1)]; VNull])])
  = Throw TypeError.
Proof.
  destruct (convertWhereParams (VObj [("_or", VArr [VObj [("a", num 1)]; VNull])]))
    as [clauses | e] eqn:E.
  - discriminate E.
  - now rewrite (convertWhereParams_throws_only_TypeError _ e E).
Defined.

Lemma lastIndexOf_Some_split (c : ascii) (s : string) (i : nat) :
  Str.lastIndexOf c s = Some i ->
  s = (Str.substring0 i s ++ String c (Str.slice (S i) s))%string
  /\ Str.lastIndexOf c (Str.slice (S i) s) = None.
Proof.
  revert i. induction s as [| a s IH]; simpl; intros i H; [discriminate |].
  destruct (Str.lastIndexOf c s) as [j |] eqn:E.
  - inv_Ok H. destruct (IH j eq_refl) as [Hs Hnone].
    change (Str.slice (S (S j)) (String a s)) with (Str.slice (S j) s).
    split; [| exact Hnone].
    cbn [Str.substring0 String.append]. f_equal. exact Hs.
  - destruct (Ascii.eqb a c) eqn:Ea; [| discriminate H]. inv_Ok H.
    apply Ascii.eqb_eq in Ea. subst a.
    change (Str.slice 1 (String c s)) with (Str.slice 0 s).
    assert (Hz : Str.slice 0 s = s) by (destruct s; reflexivity).
    rewrite Hz. split; [reflexivity | exact E].
Qed.

Lemma length_app (s1 s2 : string) :
  String.length (s1 ++ s2)%string = (String.length s1 + String.length s2)%nat.
Proof.
  induction s1 as [| a s1 IH]; simpl; [reflexivity | now rewrite IH].
Qed.

(** The clause pushed for a key that is neither [_or] nor [_and]: a leaf with
    the value as it is, and a field and an operator of the vocabulary of which
    the key is made, [field] alone (the operator being [eq]) or
    [field_operator]. *)
Lemma leaf_key_clause (rec : value -> result (list value)) (key : string) (val : value) :
  key <> "_or" -> key <> "_and" ->
  exists field operator,
    convertWhereClause rec key val
    = Ok (if (key =? field) && (operator =? "eq")
          then fieldOnly field val
          else VObj [("field", VStr field); ("operator", VStr operator); ("value", val)])
    /\ In operator VALID_REST_OPERATORS
    /\ ((key = field /\ operator = "eq")
        \/ (key = (field ++ String "_" operator)%string /\ key <> field)).
Proof.
  intros Hor Hand. unfold convertWhereClause.
  destruct (Str.lastIndexOf "_" key) as [i |] eqn:E.
  - destruct (lastIndexOf_Some_split _ _ _ E) as [Hkey Hsuffix].
    set (field := Str.substring0 i key) in *.
    set (operator := Str.slice (S i) key) in *.
    assert (Hne : key <> field).
    { intros Heq. rewrite Heq in Hkey at 1.
      apply (f_equal String.length) in Hkey.
      rewrite length_app in Hkey. simpl in Hkey. lia. }
    destruct (Str.includes operator BOOLEAN_OPERATORS && (field =? EmptyString)) eqn:Hb.
    + apply andb_true_iff in Hb. destruct Hb as [Hb Hf].
      apply includes_In in Hb. apply String.eqb_eq in Hf. rewrite Hf in Hkey.
      simpl in Hb, Hkey. destruct Hb as [Hb | [Hb | []]]; rewrite <- Hb in Hkey;
        [now elim Hor | now elim Hand].
    + destruct (Str.includes operator VALID_REST_OPERATORS) eqn:Hv; cbn [negb].
      * exists field, operator. apply includes_In in Hv.
        apply String.eqb_neq in Hne. rewrite Hne. cbn [andb].
        split; [reflexivity |]. split; [exact Hv |]. right.
        apply String.eqb_neq in Hne. tauto.
      * exists key, "eq". rewrite !String.eqb_refl. cbn [andb].
        split; [reflexivity |]. split; [apply eq_in_vocabulary | tauto].
  - exists key, "eq". rewrite !String.eqb_refl. cbn [andb].
    split; [reflexivity |]. split; [apply eq_in_vocabulary | tauto].
Qed.

Lemma pushedClause_leaf (key field operator : string) (val : value) :
  In operator VALID_REST_OPERATORS ->
  pushedClause (if (key =? field) && (operator =? "eq")
                then fieldOnly field val
                else VObj [("field", VStr field); ("operator", VStr operator);
                           ("value", val)])
  = leafClause field operator val.
Proof.
  intros _. destruct ((key =? field) && (operator =? "eq")) eqn:E.
  - apply andb_true_iff in E. destruct E as [_ E]. apply String.eqb_eq in E. now subst.
  - reflexivity.
Qed.

(** An object of filters with no [_or] and no [_and] key always parses, into
    one leaf clause per key, in the order of the keys; each clause carries the
    value of its key as it is, and a field and an operator of the vocabulary
    that spell the key: [field] alone with operator [eq], or
    [field_operator]. *)
Theorem flat_filters_parse_key_by_key (props : Obj.t) :
  (forall k, In k (Obj.keys props) -> k <> "_or" /\ k <> "_and") ->
  exists clauses,
    convertWhereParams (VObj props) = Ok clauses
    /\ Forall2
         (fun p clause =>
            exists field operator,
              clause = leafClause field operator (snd p)
              /\ In operator VALID_REST_OPERATORS
              /\ ((fst p = field /\ operator = "eq")
                  \/ fst p = (field ++ String "_" operator)%string))
         props clauses.
Proof.
  induction props as [| [k v] props IH]; intros Hkeys.
  - exists []. split; [reflexivity | constructor].
  - destruct IH as [clauses [Hc HF]].
    { intros k' Hin. apply Hkeys. now right. }
    destruct (Hkeys k (or_introl eq_refl)) as [Hor Hand].
    destruct (leaf_key_clause convertWhereParams k v Hor Hand)
      as [field [operator [Hparsed [Hop Hspell]]]].
    exists (leafClause field operator v :: clauses). split.
    + simpl in Hc |- *. rewrite Hparsed. cbn [bind].
      rewrite (pushedClause_leaf _ _ _ _ Hop), Hc. reflexivity.
    + constructor; [| exact HF]. exists field, operator. cbn [fst snd].
      split; [reflexivity |]. split; [exact Hop |]. tauto.
Qed.

Lemma flat_filters_parse_key_by_key_witness :
  let props := [("price_gte", num 10); ("first_name", VStr "Jo"); ("tags_in", VNull)] in
  (forall k, In k (Obj.keys props) -> k <> "_or" /\ k <> "_and")
  /\ exists clauses, convertWhereParams (VObj props) = Ok clauses
                     /\ List.length clauses = 3%nat.
Proof.
  intros props.
  assert (Hk : forall k, In k (Obj.keys props) -> k <> "_or" /\ k <> "_and").
  { simpl. intros k [<- | [<- | [<- | []]]]; split; discriminate. }
  split; [exact Hk |].
  destruct (flat_filters_parse_key_by_key props Hk) as [clauses [Hc HF]].
  exists clauses. split; [exact Hc |].
  apply Forall2_length in HF. now rewrite <- HF.
Defined.

(* ================================================================== *)
(** ** Boolean composition *)

Lemma mapM_Ok_iff {A B : Type} (f : A -> result B) (l : list A) (ys : list B) :
  mapM f l = Ok ys <-> Forall2 (fun x y => f x = Ok y) l ys.
Proof.
  split.
  - revert ys. induction l as [| x l IH]; simpl; intros ys H.
    + inv_Ok H. constructor.
    + inv_bind H. inv_bind H. inv_Ok H. constructor; auto.
  - induction 1 as [| x y l ys Hx _ IH]; simpl; [reflexivity |].
    now rewrite Hx, IH.
Qed.

Lemma boolean_no_underscore (operator : string) :
  In operator BOOLEAN_OPERATORS -> contains_char "_" operator = false.
Proof.
  simpl. intros [<- | [<- | []]]; reflexivity.
Qed.

(** The value of [_or] and [_and] is a list of groups.  A value that is not a
    list stands for the list of that one group; a list parses exactly when
    each element parses, into one clause with a null field whose value holds
    the clauses of each element, group by group and in order. *)
Theorem boolean_clause_groups (operator : string) :
  In operator BOOLEAN_OPERATORS ->
  (forall (parser : value -> result (list value)) (val : value),
      (forall elems, val <> VArr elems) ->
      convertWhereClause parser (String "_" operator) val
      = convertWhereClause parser (String "_" operator) (VArr [val]))
  /\ (forall (elems clauses : list value),
        convertWhereParams (VObj [(String "_" operator, VArr elems)]) = Ok clauses
        <-> exists groups,
              Forall2 (fun x group => convertWhereParams x = Ok group) elems groups
              /\ clauses = [booleanClause operator groups]).
Proof.
  intros Hop. pose proof (boolean_no_underscore _ Hop) as Hu.
  assert (Hsplit : forall parser val,
             convertWhereClause parser (String "_" operator) val
             = (groups <- match val with
                          | VArr elems => mapM parser elems
                          | _ => group <- parser val ;; Ok [group]
                          end ;;
                Ok (booleanClause operator groups))).
  { intros parser val.
    change (String "_" operator) with ((EmptyString ++ String "_" operator)%string).
    rewrite (convertWhereClause_split _ _ _ _ Hu).
    apply includes_In in Hop. now rewrite Hop. }
  split.
  - intros parser val Hval. rewrite !Hsplit. cbn [mapM].
    destruct val; try (now destruct (parser _)).
    now elim (Hval elems).
  - intros elems clauses. cbn [convertWhereParams mapEntriesM]. rewrite Hsplit. split.
    + intros H.
      apply bind_Ok in H. destruct H as [clause [Hclause H]].
      cbn [bind] in H. injection H as <-.
      apply bind_Ok in Hclause. destruct Hclause as [parsed [Hparsed Hclause]].
      injection Hclause as <-.
      apply bind_Ok in Hparsed. destruct Hparsed as [groups [Hgroups Hparsed]].
      injection Hparsed as <-.
      exists groups. split; [now apply mapM_Ok_iff | reflexivity].
    + intros [groups [HF ->]]. apply mapM_Ok_iff in HF. rewrite HF. reflexivity.
Qed.

Lemma boolean_clause_groups_witness :
  In "and" BOOLEAN_OPERATORS
  /\ convertWhereParams (VObj [("_and", VObj [("a_lt", num 3)])])
     = convertWhereParams (VObj [("_and", VArr [VObj [("a_lt", num 3)]])])
  /\ convertWhereParams (VObj [("_and", VArr [VObj [("a_lt", num 3)]])])
     = Ok [booleanClause "and" [[leafClause "a" "lt" (num 3)]]].
Proof.
  assert (Hop : In "and" BOOLEAN_OPERATORS) by (right; left; reflexivity).
  split; [exact Hop |].
  destruct (boolean_clause_groups "and" Hop) as [Hone Hlist].
  split.
  - cbn [convertWhereParams mapEntriesM].
    rewrite (Hone convertWhereParams (VObj [("a_lt", num 3)])); [reflexivity |].
    discriminate.
  - apply Hlist. exists [[leafClause "a" "lt" (num 3)]].
    split; [| reflexivity]. repeat constructor.
Defined.

(* ================================================================== *)
(** ** What the sort parser accepts *)

Lemma valid_sort_clause_dec (clause : string) :
  {valid_sort_clause clause} + {~ valid_sort_clause clause}.
Proof.
  unfold valid_sort_clause.
  destruct (string_dec (sortField clause) EmptyString) as [He | Hne].
  - right. tauto.
  - destruct (in_dec string_dec (sortOrder clause) ["asc"; "desc"]) as [Hin | Hnin].
    + left. tauto.
    + right. tauto.
Qed.

Lemma find_non_string_strings (clauses : list value) :
  find (fun clause => negb (isString clause)) clauses = None ->
  exists strings, clauses = map VStr strings.
Proof.
  induction clauses as [| c clauses IH]; simpl; intros H.
  - now exists [].
  - destruct c as [| | b | n | s | l | o]; try discriminate H.
    destruct (IH H) as [strings ->]. now exists (s :: strings).
Qed.

Lemma convertSortQueryParams_array_Ok (P : platform) (clauses sort : list value) :
  convertSortQueryParams P (VArr clauses) = Ok sort ->
  exists strings, clauses = map VStr strings.
Proof.
  unfold convertSortQueryParams. intros H.
  destruct (find (fun clause => negb (isString clause)) clauses) as [x |] eqn:Ef.
  - destruct (truthy x); [discriminate H |].
    apply find_some in Ef. destruct Ef as [Hin Hx].
    apply mapM_Ok_iff in H.
    assert (Hex : exists y, convertSortClause P x = Ok y).
    { clear -H Hin. induction H as [| c y l ys Hc _ IH]; [contradiction |].
      destruct Hin as [<- | Hin]; [now exists y | now apply IH]. }
    destruct Hex as [y Hy]. destruct x; try discriminate Hy. discriminate Hx.
  - now apply find_non_string_strings.
Qed.

(** The sort parser succeeds exactly on a string, taken as its parts between
    commas, or an array of strings, whose every clause has a field that is not
    empty and an order that is [asc] or [desc] up to case (or no order); the
    result has one entry per clause, in order, made of the field and the order
    in lower case. *)
Theorem convertSortQueryParams_Ok_iff (P : platform) (sortQuery : value)
  (sort : list value) :
  convertSortQueryParams P sortQuery = Ok sort
  <-> exists clauses,
        (sortQuery = VArr (map VStr clauses)
         \/ exists s, sortQuery = VStr s /\ clauses = Str.split "," s)
        /\ Forall valid_sort_clause clauses
        /\ sort = map (sortEntry P) clauses.
Proof.
  assert (Harr : forall clauses,
             convertSortQueryParams P (VArr (map VStr clauses)) = Ok sort ->
             Forall valid_sort_clause clauses /\ sort = map (sortEntry P) clauses).
  { intros clauses H.
    destruct (Forall_dec _ valid_sort_clause_dec clauses) as [Hv | Hn].
    - rewrite (proj1 (convertSortQueryParams_strings P clauses) Hv) in H.
      inv_Ok H. split; [exact Hv | reflexivity].
    - destruct (proj2 (convertSortQueryParams_strings P clauses) Hn) as [msg Hmsg].
      rewrite Hmsg in H. discriminate H. }
  split.
  - intros H. destruct sortQuery as [| | b | n | s | l | o]; try discriminate H.
    + exists (Str.split "," s). destruct (Harr _ H) as [Hv Hs].
      split; [right; now exists s | tauto].
    + destruct (convertSortQueryParams_array_Ok _ _ _ H) as [strings ->].
      exists strings. destruct (Harr _ H) as [Hv Hs]. tauto.
  - intros [clauses [Hshape [Hv ->]]].
    destruct Hshape as [-> | [s [-> ->]]];
      apply (proj1 (convertSortQueryParams_strings P _) Hv).
Qed.

Lemma convertSortQueryParams_Ok_iff_witness :
  exists clauses,
    Forall valid_sort_clause clauses
    /\ convertSortQueryParams sample_platform (VStr "name:DESC,id") = Ok
         (map (sortEntry sample_platform) clauses)
    /\ map (sortEntry sample_platform) clauses
       = [VObj [("name", VStr "desc")]; VObj [("id", VStr "asc")]].
Proof.
  destruct (proj1 (convertSortQueryParams_Ok_iff sample_platform (VStr "name:DESC,id")
                     [VObj [("name", VStr "desc")]; VObj [("id", VStr "asc")]])
              eq_refl) as [clauses [Hshape [Hv Hs]]].
  exists clauses. split; [exact Hv |]. split; [| now rewrite <- Hs].
  rewrite <- Hs. reflexivity.
Defined.

(* ================================================================== *)
(** ** Decimal strings through the start and limit parsers *)

Lemma digits_of_uint (u : Decimal.uint) (acc len : nat) :
  Str.digits 10 (Z.of_nat acc) len (NilEmpty.string_of_uint u)
  = (Z.of_nat (Nat.of_uint_acc u acc), (len + Decimal.nb_digits u)%nat, EmptyString).
Proof.
  revert acc len.
  induction u as [| u IH | u IH | u IH | u IH | u IH | u IH | u IH | u IH | u IH | u IH];
    intros acc len;
    [ simpl; now rewrite Nat.add_0_r | .. ];
    cbn [NilEmpty.string_of_uint Str.digits Nat.of_uint_acc Decimal.nb_digits];
    match goal with
    | |- context [Str.digit 10 ?c] =>
        let v := eval vm_compute in (Str.digit 10 c) in
        change (Str.digit 10 c) with v
    end;
    cbv iota;
    match goal with
    | |- Str.digits 10 ?a (S len) _ = (Z.of_nat (Nat.of_uint_acc _ ?m), _, _) =>
        replace a with (Z.of_nat m)
          by (rewrite Nat.tail_mul_spec; change (Z.of_nat 10) with 10%Z; lia)
    end;
    rewrite IH; f_equal; f_equal; lia.
Qed.

Lemma nb_digits_to_uint (n : nat) : Decimal.nb_digits (Nat.to_uint n) <> 0%nat.
Proof.
  rewrite DecimalNat.Unsigned.to_uint_alt, DecimalFacts.nb_digits_rev.
  destruct n as [| n]; [discriminate |].
  rewrite DecimalNat.Unsigned.to_lu_succ.
  destruct (DecimalNat.Unsigned.to_lu n); discriminate.
Qed.

Lemma all_digits_of_uint (u : Decimal.uint) :
  all_digits (NilEmpty.string_of_uint u) = true.
Proof.
  induction u; simpl; try exact IHu; reflexivity.
Qed.

Lemma rev_onto_rev_onto (s a b : string) :
  Str.rev_onto (Str.rev_onto s a) b = Str.rev_onto a (s ++ b)%string.
Proof.
  revert a b. induction s as [| c s IH]; simpl; intros a b.
  - reflexivity.
  - rewrite IH. reflexivity.
Qed.

Lemma rev_rev (s : string) : Str.rev (Str.rev s) = s.
Proof.
  unfold Str.rev. rewrite rev_onto_rev_onto. simpl.
  induction s as [| c s IH]; simpl; [reflexivity | now rewrite IH].
Qed.

Lemma all_digits_rev_onto (s acc : string) :
  all_digits (Str.rev_onto s acc) = all_digits s && all_digits acc.
Proof.
  revert acc. induction s as [| c s IH]; simpl; intros acc.
  - reflexivity.
  - rewrite IH. simpl. now destruct (is_decimal_digit c), (all_digits s).
Qed.

Lemma digit_not_space (c : ascii) :
  is_decimal_digit c = true -> Str.is_space c = false.
Proof.
  unfold is_decimal_digit, Str.is_space. intros H.
  apply andb_true_iff in H. destruct H as [H1 H2].
  apply Nat.leb_le in H1. apply Nat.leb_le in H2.
  apply orb_false_iff. split; [apply orb_false_iff; split |].
  - apply andb_false_iff. right. apply Nat.leb_gt. lia.
  - apply Nat.eqb_neq. lia.
  - apply Nat.eqb_neq. lia.
Qed.

Lemma trimStart_digits (s : string) : all_digits s = true -> Str.trimStart s = s.
Proof.
  destruct s as [| c s]; simpl; [reflexivity |].
  intros H. apply andb_true_iff in H. destruct H as [H _].
  now rewrite (digit_not_space _ H).
Qed.

Lemma trim_digits (s : string) : all_digits s = true -> Str.trim s = s.
Proof.
  intros H. unfold Str.trim. rewrite (trimStart_digits _ H).
  rewrite trimStart_digits, rev_rev; [reflexivity |].
  unfold Str.rev. now rewrite all_digits_rev_onto, H.
Qed.

(** A string of digits is read as a decimal literal. *)
Lemma of_string_digits (s : string) :
  all_digits s = true -> s <> EmptyString ->
  ToNumber.of_string s = ToNumber.unsigned_decimal false s.
Proof.
  intros H Hne. unfold ToNumber.of_string. rewrite (trim_digits _ H).
  destruct s as [| c s]; [now elim Hne |].
  cbn [all_digits] in H. apply andb_true_iff in H. destruct H as [Hc Hs].
  destruct c as [[] [] [] [] [] [] [] []]; try discriminate Hc; try reflexivity.
  destruct s as [| c s]; [reflexivity |].
  cbn [all_digits] in Hs. apply andb_true_iff in Hs. destruct Hs as [Hc' _].
  destruct c as [[] [] [] [] [] [] [] []]; try discriminate Hc'; reflexivity.
Qed.

Lemma digits_not_Infinity (s : string) :
  all_digits s = true -> (s =? "Infinity") = false.
Proof.
  destruct s as [| c s]; [reflexivity |].
  cbn [all_digits]. intros H. apply andb_true_iff in H. destruct H as [Hc _].
  simpl. destruct (Ascii.eqb c "I") eqn:E; [| reflexivity].
  apply Ascii.eqb_eq in E. subst c. discriminate Hc.
Qed.

Lemma round_half_even_1 (n : Z) : Num.round_half_even n 1 = n.
Proof.
  unfold Num.round_half_even. now rewrite Z.mod_1_r, Z.div_1_r.
Qed.

Lemma trailing_zeros_nonneg (p : positive) : (0 <= Num.trailing_zeros p)%Z.
Proof.
  induction p; cbn [Num.trailing_zeros]; lia.
Qed.

Lemma trailing_zeros_shift (j : nat) (q : Z) :
  (0 < q)%Z ->
  (Z.of_nat j <= Num.trailing_zeros (Z.to_pos (q * 2 ^ Z.of_nat j)))%Z.
Proof.
  intros Hq. induction j as [| j IH].
  - simpl. apply trailing_zeros_nonneg.
  - rewrite Nat2Z.inj_succ, Z.pow_succ_r by lia.
    replace (q * (2 * 2 ^ Z.of_nat j))%Z with (2 * (q * 2 ^ Z.of_nat j))%Z by lia.
    assert (Hm : (0 < q * 2 ^ Z.of_nat j)%Z) by (apply Z.mul_pos_pos; lia).
    destruct (q * 2 ^ Z.of_nat j)%Z as [| m | m]; try lia.
    change (Z.to_pos (2 * Z.pos m)) with (xO m).
    change (Z.to_pos (Z.pos m)) with m in IH.
    cbn [Num.trailing_zeros]. lia.
Qed.

(** An integer below [2^53] is a double. *)
Lemma of_ratio_integer (n : Z) :
  (0 <= n < 2 ^ 53)%Z -> Num.of_ratio false n 1 = Int n.
Proof.
  intros [H0 H53]. unfold Num.of_ratio.
  destruct (Z.eqb_spec n 0) as [-> | Hn]; [reflexivity |].
  assert (Hpos : (0 < n)%Z) by lia.
  assert (Hl : (0 <= Z.log2 n <= 52)%Z).
  { split; [apply Z.log2_nonneg |].
    assert (Z.log2 n < 53)%Z by (apply Z.log2_lt_pow2; lia). lia. }
  assert (Hfl : Num.floor_log2 n 1 = Z.log2 n).
  { unfold Num.floor_log2. change (Z.log2 1) with 0%Z. rewrite Z.sub_0_r.
    destruct (Z.leb_spec 0 (Z.log2 n)) as [_ | Hneg]; [| lia].
    rewrite Z.mul_1_l.
    destruct (Z.leb_spec (2 ^ Z.log2 n) n) as [_ | Hlt]; [reflexivity |].
    pose proof (Z.log2_spec n Hpos). lia. }
  rewrite Hfl. rewrite Z.max_l by lia.
  set (k := (Z.log2 n - 52)%Z).
  assert (Hk : (-52 <= k <= 0)%Z) by (unfold k; lia).
  destruct (Z.leb_spec 0 k) as [Hk0 | Hk0].
  - assert (k = 0%Z) by lia. clearbody k. subst k.
    change (1 * 2 ^ 0)%Z with 1%Z. rewrite round_half_even_1.
    apply Z.eqb_neq in Hn. rewrite Hn. simpl. unfold Num.finite. simpl.
    now rewrite Z.mul_1_r.
  - rewrite round_half_even_1.
    assert (Hq : (0 < n * 2 ^ (- k))%Z) by (apply Z.mul_pos_pos; lia).
    destruct (Z.eqb_spec (n * 2 ^ (- k)) 0) as [Hz | _]; [lia |].
    replace (971 <? k)%Z with false by (symmetry; apply Z.ltb_ge; lia).
    replace (k =? 971)%Z with false by (symmetry; apply Z.eqb_neq; lia).
    cbn [orb andb]. unfold Num.finite.
    replace (0 <=? k)%Z with false by (symmetry; apply Z.leb_gt; lia).
    pose proof (trailing_zeros_shift (Z.to_nat (- k)) n Hpos) as Htz.
    rewrite Z2Nat.id in Htz by lia.
    rewrite Z.min_r by exact Htz. rewrite Z.eqb_refl.
    f_equal. apply Z.div_mul. lia.
Qed.

Lemma unsigned_decimal_of_nat (n : nat) :
  (Z.of_nat n < 2 ^ 53)%Z ->
  ToNumber.unsigned_decimal false (Str.of_nat n) = Int (Z.of_nat n).
Proof.
  intros Hn. unfold ToNumber.unsigned_decimal, Str.of_nat.
  rewrite (digits_not_Infinity _ (all_digits_of_uint _)).
  change 0%Z with (Z.of_nat 0) at 1. rewrite digits_of_uint.
  change (Nat.of_uint_acc (Nat.to_uint n) 0) with (Nat.of_uint (Nat.to_uint n)).
  rewrite DecimalNat.Unsigned.of_to. cbn [Nat.add].
  replace (Decimal.nb_digits (Nat.to_uint n) + 0 =? 0)%nat with false.
  2:{ symmetry. apply Nat.eqb_neq. pose proof (nb_digits_to_uint n). lia. }
  cbn. rewrite Z.mul_1_r. apply of_ratio_integer. lia.
Qed.

(** The decimal writing of a natural number below [2^53] is accepted by the
    start parser and by the limit parser, which both return that number. *)
Theorem decimal_start_limit (P : platform) (n : nat) :
  (Z.of_nat n < 2 ^ 53)%Z ->
  convertStartQueryParams P (VStr (Str.of_nat n)) = Ok (Int (Z.of_nat n))
  /\ convertLimitQueryParams P (VStr (Str.of_nat n)) = Ok (Int (Z.of_nat n)).
Proof.
  intros Hn.
  assert (Hnum : toNumber P (VStr (Str.of_nat n)) = Ok (Int (Z.of_nat n))).
  { cbn [toNumber]. rewrite of_string_digits.
    - now rewrite unsigned_decimal_of_nat.
    - apply all_digits_of_uint.
    - unfold Str.of_nat. intros He. apply (nb_digits_to_uint n).
      destruct (Nat.to_uint n); try discriminate He. reflexivity. }
  unfold convertStartQueryParams, convertLimitQueryParams. rewrite Hnum. cbn [bind].
  cbn [Num.isInteger negb orb Num.ltb0].
  replace (Z.of_nat n <? 0)%Z with false by (symmetry; apply Z.ltb_ge; lia).
  rewrite andb_false_r. split; reflexivity.
Qed.

Lemma decimal_start_limit_witness :
  (Z.of_nat 1500 < 2 ^ 53)%Z
  /\ convertStartQueryParams sample_platform (VStr "1500") = Ok (Int 1500)
  /\ convertLimitQueryParams sample_platform (VStr "1500") = Ok (Int 1500).
Proof.
  assert (H : (Z.of_nat 1500 < 2 ^ 53)%Z) by (vm_compute; reflexivity).
  split; [exact H |].
  exact (decimal_start_limit sample_platform 1500 H).
Defined.

(* ================================================================== *)
(** ** The where list without [_where] *)

(** When the raw params are not empty and carry no [_where], the where list
    of the descriptor is the list of the clauses parsed from the extra-root
    params; it is present even when there is no such clause. *)
Theorem where_without_explicit_filters (P : platform) (params defaults r : value) :
  nonempty_params params ->
  Obj.lodash_has "_where" params = false ->
  convertRestQueryParams P params defaults = Ok r ->
  exists extraClauses,
    convertWhereParams (VObj (extraRootParams params)) = Ok extraClauses
    /\ Obj.prop "where" r = VArr extraClauses
    /\ Obj.lodash_has "where" r = true.
Proof.
  intros Hne Hw H.
  destruct (convertRestQueryParams_steps _ _ _ _ Hne H)
    as [fp1 [fp2 [fp3 [fp4 [ex [wc [_ [_ [_ [_ [Hex [Hwc ->]]]]]]]]]]]].
  rewrite extraRootStep_parse in Hex.
  unfold whereStep in Hwc. rewrite Hw in Hwc. inv_Ok Hwc.
  exists wc. split; [exact Hex |]. split; [apply prop_set_same; discriminate |].
  simpl. unfold Obj.has. now rewrite get_set.
Qed.

Lemma where_without_explicit_filters_witness :
  let params := VObj [("title_contains", VStr "rocq"); ("_limit", VStr "5")] in
  nonempty_params params
  /\ exists r,
       convertRestQueryParams sample_platform params (VObj []) = Ok r
       /\ Obj.prop "where" r = VArr [leafClause "title" "contains" (VStr "rocq")].
Proof.
  intros params.
  assert (Hne : nonempty_params params) by (repeat split; discriminate).
  split; [exact Hne |]. eexists. split; [reflexivity |].
  destruct (where_without_explicit_filters sample_platform params (VObj []) _
              Hne eq_refl eq_refl) as [extra [Hex [Hw _]]].
  injection Hex as <-. exact Hw.
Defined.

(* ================================================================== *)
(** ** What the sort parser refuses, and with which message *)

(** The type of the input is looked at before any clause.  An input that is
    neither a string nor an array is refused with its type; an array whose
    first element that is not a string is truthy is refused with the type of
    that element, whatever the other elements are. *)
Theorem convertSortQueryParams_type_refusals (P : platform) :
  (forall sortQuery,
      (forall s, sortQuery <> VStr s) -> (forall l, sortQuery <> VArr l) ->
      convertSortQueryParams P sortQuery
      = Throw (Error (ExpectedArrayOfString (typeof sortQuery))))
  /\ (forall (strings : list string) (x : value) (rest : list value),
        isString x = false -> truthy x = true ->
        convertSortQueryParams P (VArr (map VStr strings ++ x :: rest))
        = Throw (Error (FoundNonString (typeof x)))).
Proof.
  split.
  - apply convertSortQueryParams_not_array.
  - intros strings x rest Hx Ht.
    apply convertSortQueryParams_truthy_non_string; [| exact Ht].
    now apply find_non_string_app.
Qed.

Lemma convertSortQueryParams_type_refusals_witness :
  convertSortQueryParams sample_platform (VObj [("id", VStr "asc")])
  = Throw (Error (ExpectedArrayOfString "object"))
  /\ convertSortQueryParams sample_platform (VArr [VStr ":"; VBool true; VNull])
     = Throw (Error (FoundNonString "boolean")).
Proof.
  destruct (convertSortQueryParams_type_refusals sample_platform) as [Hna Hns].
  split.
  - apply (Hna (VObj [("id", VStr "asc")])); discriminate.
  - apply (Hns [":"] (VBool true) [VNull]); reflexivity.
Defined.

(** Among strings, the first clause that is not valid decides the message:
    an empty field is reported before the order is looked at. *)
Theorem convertSortQueryParams_first_invalid_clause (P : platform)
  (valid : list string) (bad : string) (rest : list string) :
  Forall valid_sort_clause valid ->
  ~ valid_sort_clause bad ->
  convertSortQueryParams P (VArr (map VStr (valid ++ bad :: rest)))
  = Throw (Error (if sortField bad =? EmptyString
                  then FieldCannotBeEmpty else OrderOneOf)).
Proof.
  intros Hv Hbad. unfold convertSortQueryParams.
  rewrite find_non_string_none. cbn [truthy].
  induction Hv as [| s valid Hs Hv IH]; cbn [map app mapM].
  - unfold convertSortClause. fold (sortField bad).
    destruct (String.eqb_spec (sortField bad) EmptyString) as [He | Hne].
    + rewrite He. reflexivity.
    + replace (String.length (sortField bad) =? 0)%nat with false.
      2:{ symmetry. apply Bool.not_true_iff_false. intros Hl.
          apply length_zero_empty in Hl. contradiction. }
      unfold Str.toLocaleLowerCase. fold (sortOrder bad).
      destruct (Str.includes (sortOrder bad) ["asc"; "desc"]) eqn:Eo; [| reflexivity].
      elim Hbad. split; [exact Hne | now apply includes_In].
  - rewrite (proj1 (convertSortClause_string P s) Hs). cbn [bind]. now rewrite IH.
Qed.

Lemma convertSortQueryParams_first_invalid_clause_witness :
  Forall valid_sort_clause ["id:desc"]
  /\ ~ valid_sort_clause ":up"
  /\ convertSortQueryParams sample_platform (VStr "id:desc,:up,name:down")
     = Throw (Error FieldCannotBeEmpty).
Proof.
  assert (Hv : Forall valid_sort_clause ["id:desc"]).
  { constructor; [split; [discriminate | right; left; reflexivity] | constructor]. }
  assert (Hb : ~ valid_sort_clause ":up").
  { intros [Hf _]. now apply Hf. }
  split; [exact Hv |]. split; [exact Hb |].
  exact (convertSortQueryParams_first_invalid_clause sample_platform
           ["id:desc"] ":up" ["name:down"] Hv Hb).
Defined.

(* ================================================================== *)
(** ** Boolean composition among the root params: the clause *)






